(** * A decision-tree classifier: shallow embedding and specification check

    The development embeds the class [DecisionTreeClassifier] of
    [decision_tree.ipynb] (impurity, split search, tree construction,
    prediction and reduced-error pruning) and proves or refutes the
    properties its specification states.

    Conventions of the embedding:
    - Python numbers ([int], [float], [bool]) are rationals [Q]; arithmetic is
      exact, comparisons are [Qeq_bool] and [Qle_bool].  The program computes
      impurities, gains and midpoints in double precision; the rounding of
      doubles, the [OverflowError] of an integer mean beyond their range and
      the recursion limit of the interpreter are left out of the embedding.
    - Class labels are an abstract type with decidable equality (they are only
      hashed and compared by the program).
    - A Python exception is a value [Raise e] of the [result] type.
    - The in-place mutation of a tree node is explicit state passing: the
      pruner returns the node as it stands when the call ends, together with
      the exception that ended it, if any. *)

From Stdlib Require Import String Bool Arith ZArith QArith Lia Lqa.
From Stdlib Require Import List Permutation.
Import ListNotations.

Set Implicit Arguments.

Close Scope Q_scope.
Close Scope Z_scope.

(** ** Python values, exceptions and the result monad *)

(** A feature value: [None], a number, or a string token. *)
Inductive value : Type :=
| VNone
| VNum (q : Q)
| VStr (s : string).

(** A sample is a list of feature values. *)
Definition row : Type := list value.

(** The exceptions the program can raise.  [RecursionError] is raised by no
    operation of the model; it only names an exhausted recursion budget in
    [_build_tree], and the budget used there is never exhausted
    ([build_tree_terminates]). *)
Inductive exn : Type :=
| TypeError
| IndexError
| ValueError
| RecursionError.

Inductive result (A : Type) : Type :=
| Ok (a : A)
| Raise (e : exn).

Arguments Ok {A} a.
Arguments Raise {A} e.

Definition bind {A B : Type} (m : result A) (k : A -> result B) : result B :=
  match m with
  | Ok a => k a
  | Raise e => Raise e
  end.

Notation "x <- m ;; k" := (bind m (fun x => k))
  (at level 61, m at next level, right associativity).
Notation "' pat <- m ;; k" := (bind m (fun x => match x with pat => k end))
  (at level 61, pat pattern, m at next level, right associativity).

(** A [for] loop whose body may raise: the state is threaded left to right and
    the first exception ends the loop. *)
Fixpoint for_each {S A : Type} (body : S -> A -> result S) (l : list A) (s : S)
  : result S :=
  match l with
  | [] => Ok s
  | a :: l' => s' <- body s a ;; for_each body l' s'
  end.

(** A list comprehension whose element expression may raise. *)
Fixpoint comprehension {A B : Type} (f : A -> result B) (l : list A)
  : result (list B) :=
  match l with
  | [] => Ok []
  | a :: l' => b <- f a ;; bs <- comprehension f l' ;; Ok (b :: bs)
  end.

(** [l[i]] for a non-negative index. *)
Definition index {A : Type} (l : list A) (i : nat) : result A :=
  match nth_error l i with
  | Some a => Ok a
  | None => Raise IndexError
  end.

(** [isinstance(v, (int, float))] *)
Definition is_number (v : value) : bool :=
  match v with
  | VNum _ => true
  | _ => false
  end.

(** [v is None] *)
Definition is_None (v : value) : bool :=
  match v with
  | VNone => true
  | _ => false
  end.

(** [a == b] on feature values; values of different kinds are unequal. *)
Definition veqb (a b : value) : bool :=
  match a, b with
  | VNone, VNone => true
  | VNum p, VNum q => Qeq_bool p q
  | VStr s, VStr t => String.eqb s t
  | _, _ => false
  end.

(** [val <= threshold] for a numeric threshold: ordering a string or [None]
    against a number raises [TypeError]. *)
Definition le_number (val : value) (threshold : Q) : result bool :=
  match val with
  | VNum q => Ok (Qle_bool q threshold)
  | _ => Raise TypeError
  end.

(** [a == b] on rows (lists compare element by element). *)
Fixpoint row_eqb (a b : row) : bool :=
  match a, b with
  | [], [] => true
  | u :: a', v :: b' => veqb u v && row_eqb a' b'
  | _, _ => false
  end.

(** [set(values)]: the distinct elements, each represented by its first
    occurrence. *)
Fixpoint distinct (l : list value) : list value :=
  match l with
  | [] => []
  | v :: l' => v :: filter (fun w => negb (veqb v w)) (distinct l')
  end.

(** The order in which a [set] is iterated is not fixed by the language; every
    order is admitted. *)
Class SetOrder : Type := {
  set_iter : list value -> list value;
  set_iter_perm : forall l, Permutation (set_iter l) l
}.

(** [sorted] on numbers (insertion sort). *)
Fixpoint insert_sorted (q : Q) (l : list Q) : list Q :=
  match l with
  | [] => [q]
  | p :: l' => if Qle_bool q p then q :: l else p :: insert_sorted q l'
  end.

Definition sorted (l : list Q) : list Q := fold_right insert_sorted [] l.

(** [sum] of a sequence of numbers, starting from 0. *)
Definition py_sum (l : list Q) : Q := fold_left Qplus l 0%Q.

(** ** Labels and [collections.Counter] *)

Class EqDec (A : Type) : Type :=
  eq_dec : forall a b : A, {a = b} + {a <> b}.

#[export] Instance string_EqDec : EqDec string := string_dec.

Section Labels.

Context {label : Type} `{EqDec label}.

(** A counter is a dictionary from labels to counts, kept in insertion
    order. *)
Definition counter : Type := list (label * nat).

Fixpoint counter_add (c : counter) (x : label) : counter :=
  match c with
  | [] => [(x, 1)]
  | (k, n) :: c' =>
      if eq_dec k x then (k, S n) :: c' else (k, n) :: counter_add c' x
  end.

(** [Counter(y)] *)
Definition Counter (y : list label) : counter := fold_left counter_add y [].

(** [max(items, key=itemgetter(1))] with a running maximum: a later item
    replaces the maximum only when its count is strictly larger. *)
Fixpoint max_count (best : label * nat) (c : counter) : label * nat :=
  match c with
  | [] => best
  | (k, n) :: c' =>
      if snd best <? n then max_count (k, n) c' else max_count best c'
  end.

(** [c.most_common(1)] *)
Definition most_common1 (c : counter) : list (label * nat) :=
  match c with
  | [] => []
  | item :: c' => [max_count item c']
  end.

(** [Counter(y).most_common(1)[0][0]] *)
Definition majority (y : list label) : result label :=
  item <- index (most_common1 (Counter y)) 0 ;; Ok (fst item).

(** [len(set(y))] *)
Definition num_distinct (y : list label) : nat := length (Counter y).

(** *** Impurity Evaluator *)

(** [a / b] on two lengths or counts (true division); the quotient is exact
    here, the double next to it in the program. *)
Definition ratio (a b : nat) : Q :=
  (inject_Z (Z.of_nat a) / inject_Z (Z.of_nat b))%Q.

(** [_gini] *)
Definition _gini (y : list label) : Q :=
  let counts := Counter y in
  let n := length y in
  (1 - py_sum (map (fun count => ratio count n ^ 2) (map snd counts)))%Q.

(** *** Split Finder *)

(** [(X_part, y_part)] *)
Definition part : Type := (list row * list label)%type.

(** [((X_left, y_left), (X_right, y_right))] *)
Definition splits : Type := (part * part)%type.

(** [X_left.append(xi); y_left.append(yi)] *)
Definition append_left (s : splits) (xi : row) (yi : label) : splits :=
  let '((X_left, y_left), (X_right, y_right)) := s in
  ((X_left ++ [xi], y_left ++ [yi]), (X_right, y_right)).

(** [X_right.append(xi); y_right.append(yi)] *)
Definition append_right (s : splits) (xi : row) (yi : label) : splits :=
  let '((X_left, y_left), (X_right, y_right)) := s in
  ((X_left, y_left), (X_right ++ [xi], y_right ++ [yi])).

(** One iteration of the loop of [_split_dataset]. *)
Definition split_step (feature_index : nat) (threshold : value)
  (s : splits) (xy : row * label) : result splits :=
  let '(xi, yi) := xy in
  val <- index xi feature_index ;;
  if is_None val then Ok s
  else
    match threshold with
    | VNum t =>
        b <- le_number val t ;;
        if b : bool then Ok (append_left s xi yi) else Ok (append_right s xi yi)
    | _ =>
        if veqb val threshold
        then Ok (append_left s xi yi)
        else Ok (append_right s xi yi)
    end.

(** [_split_dataset] *)
Definition _split_dataset (X : list row) (y : list label)
  (feature_index : nat) (threshold : value) : result splits :=
  for_each (split_step feature_index threshold) (combine X y) (([], []), ([], [])).

(** [[x[feature_index] for x in X if x[feature_index] is not None]] *)
Fixpoint column_values (X : list row) (feature_index : nat) : result (list value) :=
  match X with
  | [] => Ok []
  | x :: X' =>
      v <- index x feature_index ;;
      vs <- column_values X' feature_index ;;
      Ok (if is_None v then vs else v :: vs)
  end.

(** The numbers of a list of values. *)
Fixpoint numbers (l : list value) : list Q :=
  match l with
  | [] => []
  | VNum q :: l' => q :: numbers l'
  | _ :: l' => numbers l'
  end.

(** [[(s[i] + s[i+1]) / 2 for i in range(len(s) - 1)]]; the means are exact
    here, where the program rounds them to doubles and raises
    [OverflowError] for the mean of two integers beyond the range of
    doubles. *)
Fixpoint midpoints (s : list Q) : list Q :=
  match s with
  | a :: (b :: _) as s' => ((a + b) / 2)%Q :: midpoints s'
  | _ => []
  end.

Context `{SetOrder}.

(** The candidate thresholds of a column. *)
Definition thresholds_of (values : list value) : list value :=
  let unique_values := distinct values in
  if forallb is_number unique_values
  then map VNum (midpoints (sorted (numbers unique_values)))
  else set_iter unique_values.

(** The running best candidate of [_best_split]: [best_gain], and
    [best_feature], [best_threshold] and [best_splits], which are [None]
    together and assigned together. *)
Record best : Type := {
  best_gain : Q;
  best_found : option (nat * value * splits)
}.

(** [gain > best_gain] *)
Definition Qgt_bool (a b : Q) : bool := negb (Qle_bool a b).

(** The body of the loop over thresholds.  The gain is exact here, a double
    in the program: candidates whose exact gains are equal, or differ by less
    than the rounding error, can compare differently there. *)
Definition try_threshold (X : list row) (y : list label) (base_gini : Q)
  (feature_index : nat) (b : best) (threshold : value) : result best :=
  s <- _split_dataset X y feature_index threshold ;;
  let '((X_left, y_left), (X_right, y_right)) := s in
  if (length y_left =? 0) || (length y_right =? 0) then Ok b
  else
    let n := length y_left + length y_right in
    let gini_left := _gini y_left in
    let gini_right := _gini y_right in
    let weighted_gini :=
      (ratio (length y_left) n * gini_left + ratio (length y_right) n * gini_right)%Q in
    let gain := (base_gini - weighted_gini)%Q in
    if Qgt_bool gain (best_gain b)
    then Ok {| best_gain := gain; best_found := Some (feature_index, threshold, s) |}
    else Ok b.

(** The body of the loop over features. *)
Definition try_feature (X : list row) (y : list label) (base_gini : Q)
  (b : best) (feature_index : nat) : result best :=
  values <- column_values X feature_index ;;
  for_each (try_threshold X y base_gini feature_index) (thresholds_of values) b.

(** [_best_split] *)
Definition _best_split (X : list row) (y : list label) : result best :=
  let base_gini := _gini y in
  x0 <- index X 0 ;;
  let n_features := length x0 in
  for_each (try_feature X y base_gini) (seq 0 n_features)
    {| best_gain := 0; best_found := None |}.

(** *** Tree nodes and the classifier object *)

(** A node dictionary: [{'type': 'leaf', 'class': c}] or
    [{'type': 'node', 'feature_index': .., 'feature_name': ..,
      'threshold': .., 'left': .., 'right': ..}]. *)
Inductive node : Type :=
| Leaf (class : label)
| Node (feature_index : nat) (feature_name : option string) (threshold : value)
       (left right : node).

Definition is_leaf (nd : node) : bool :=
  match nd with
  | Leaf _ => true
  | Node _ _ _ _ _ => false
  end.

(** The attributes of a [DecisionTreeClassifier] instance. *)
Record classifier : Type := {
  max_depth : option Z;
  min_samples_split : Z;
  tree : option node;
  feature_names : option (list string)
}.

(** [__init__] *)
Definition __init__ (max_depth : option Z) (min_samples_split : Z) : classifier :=
  {| max_depth := max_depth;
     min_samples_split := min_samples_split;
     tree := None;
     feature_names := None |}.

(** *** Tree Builder *)

(** [self.max_depth is not None and depth >= self.max_depth] *)
Definition depth_reached (self : classifier) (depth : Z) : bool :=
  match max_depth self with
  | Some d => (d <=? depth)%Z
  | None => false
  end.

(** [self.feature_names[feature_index] if self.feature_names else None] *)
Definition name_of_feature (self : classifier) (feature_index : nat)
  : result (option string) :=
  match feature_names self with
  | None => Ok None
  | Some [] => Ok None
  | Some names => name <- index names feature_index ;; Ok (Some name)
  end.

(** [{'type': 'leaf', 'class': Counter(y).most_common(1)[0][0]}] *)
Definition make_leaf (y : list label) : result node :=
  leaf_label <- majority y ;; Ok (Leaf leaf_label).

(** [_build_tree] with a recursion budget; [None] means the budget ran out. *)
Fixpoint _build_tree_fuel (fuel : nat) (self : classifier)
  (X : list row) (y : list label) (depth : Z) : option (result node) :=
  match fuel with
  | O => None
  | S fuel' =>
      let num_samples := length y in
      let num_labels := num_distinct y in
      if depth_reached self depth
         || (num_labels =? 1)
         || (Z.of_nat num_samples <? min_samples_split self)%Z
      then Some (make_leaf y)
      else
        match _best_split X y with
        | Raise e => Some (Raise e)
        | Ok b =>
            (* [if gain == 0 or splits is None: return leaf] *)
            match Qeq_bool (best_gain b) 0, best_found b with
            | false,
              Some (feature_index, threshold, ((X_left, y_left), (X_right, y_right))) =>
                match _build_tree_fuel fuel' self X_left y_left (depth + 1) with
                | None => None
                | Some (Raise e) => Some (Raise e)
                | Some (Ok left_branch) =>
                    match _build_tree_fuel fuel' self X_right y_right (depth + 1) with
                    | None => None
                    | Some (Raise e) => Some (Raise e)
                    | Some (Ok right_branch) =>
                        Some (name <- name_of_feature self feature_index ;;
                              Ok (Node feature_index name threshold
                                       left_branch right_branch))
                    end
                end
            | _, _ => Some (make_leaf y)
            end
        end
  end.

(** [_build_tree]: a budget of one more than the number of labels always
    suffices.  The recursion limit of the interpreter, which the program
    meets on a tree of about a thousand levels, is not part of the
    embedding. *)
Definition _build_tree (self : classifier) (X : list row) (y : list label)
  (depth : Z) : result node :=
  match _build_tree_fuel (S (length y)) self X y depth with
  | Some r => r
  | None => Raise RecursionError
  end.

(** *** Predictor *)

(** [_predict_sample] *)
Fixpoint _predict_sample (nd : node) (sample : row) : result label :=
  match nd with
  | Leaf class => Ok class
  | Node feature_index _ threshold left_node right_node =>
      val <- index sample feature_index ;;
      if is_None val then
        left_pred <- _predict_sample left_node sample ;;
        right_pred <- _predict_sample right_node sample ;;
        majority [left_pred; right_pred]
      else
        match threshold with
        | VNum t =>
            b <- le_number val t ;;
            if b : bool
            then _predict_sample left_node sample
            else _predict_sample right_node sample
        | _ =>
            if veqb val threshold
            then _predict_sample left_node sample
            else _predict_sample right_node sample
        end
  end.

(** [self._predict_sample(self.tree, sample)]: subscripting the [None] tree
    of an instance that holds no tree raises [TypeError]. *)
Definition predict_with (t : option node) (sample : row) : result label :=
  match t with
  | Some nd => _predict_sample nd sample
  | None => Raise TypeError
  end.

(** [predict] *)
Definition predict (self : classifier) (X : list row) : result (list label) :=
  comprehension (predict_with (tree self)) X.

(** *** Pruner *)

(** [sum(yp != yt for yp, yt in zip(y_pred, y_val))] *)
Definition count_errors (y_pred y_val : list label) : nat :=
  length (filter (fun p => if eq_dec (fst p) (snd p) then false else true)
                 (combine y_pred y_val)).

(** [X_val.index(x)]: the position of the first row equal to [x]. *)
Fixpoint index_of (X_val : list row) (x : row) : result nat :=
  match X_val with
  | [] => Raise ValueError
  | r :: X' => if row_eqb r x then Ok 0 else i <- index_of X' x ;; Ok (S i)
  end.

(** [combined_labels.append(y_val[X_val.index(x)])] *)
Definition append_label (X_val : list row) (y_val : list label)
  (combined_labels : list label) (x : row) : result (list label) :=
  i <- index_of X_val x ;;
  l <- index y_val i ;;
  Ok (combined_labels ++ [l]).

(** One iteration of the loop that collects [combined_labels]. *)
Definition collect_step (feature_index : nat) (threshold : value)
  (X_val : list row) (y_val : list label)
  (combined_labels : list label) (x : row) : result (list label) :=
  val <- index x feature_index ;;
  if is_None val then Ok combined_labels
  else
    match threshold with
    | VNum t =>
        b <- le_number val t ;;
        if b : bool
        then append_label X_val y_val combined_labels x
        else append_label X_val y_val combined_labels x
    | _ => append_label X_val y_val combined_labels x
    end.

(** The label a node with two leaf children would collapse to. *)
Definition majority_class (feature_index : nat) (threshold : value)
  (X_val : list row) (y_val : list label) : result label :=
  combined_labels <-
    for_each (collect_step feature_index threshold X_val y_val) X_val [] ;;
  match combined_labels with
  | [] => majority y_val
  | _ :: _ => majority combined_labels
  end.

(** The validation error of predictions rooted at [nd]:
    [sum(yp != yt for yp, yt in zip([predict(nd, x) for x in X_val], y_val))]. *)
Definition prediction_error (nd : node) (X_val : list row) (y_val : list label)
  : result nat :=
  y_pred <- comprehension (_predict_sample nd) X_val ;;
  Ok (count_errors y_pred y_val).

(** The pruning attempt at a node whose children are both leaves.  Every
    exception is raised before the node is overwritten, so the result is the
    content of the node after the attempt. *)
Definition try_prune (nd : node) (feature_index : nat) (threshold : value)
  (X_val : list row) (y_val : list label) : result node :=
  error_before <- prediction_error nd X_val y_val ;;
  majority_class <- majority_class feature_index threshold X_val y_val ;;
  let pruned := Leaf majority_class in
  error_after <- prediction_error pruned X_val y_val ;;
  if error_before <? error_after then Ok nd else Ok pruned.

(** [_prune]: the node after the call, and how the call ended. *)
Fixpoint _prune (nd : node) (X_val : list row) (y_val : list label)
  : node * result unit :=
  match nd with
  | Leaf _ => (nd, Ok tt)
  | Node feature_index name threshold left_node right_node =>
      let (left_node', r_left) := _prune left_node X_val y_val in
      match r_left with
      | Raise e => (Node feature_index name threshold left_node' right_node, Raise e)
      | Ok _ =>
          let (right_node', r_right) := _prune right_node X_val y_val in
          let nd' := Node feature_index name threshold left_node' right_node' in
          match r_right with
          | Raise e => (nd', Raise e)
          | Ok _ =>
              if is_leaf left_node' && is_leaf right_node' then
                match try_prune nd' feature_index threshold X_val y_val with
                | Ok nd'' => (nd'', Ok tt)
                | Raise e => (nd', Raise e)
                end
              else (nd', Ok tt)
          end
      end
  end.

(** *** The public operation [fit] *)

(** [self.feature_names = feature_names] *)
Definition set_feature_names (self : classifier)
  (feature_names : option (list string)) : classifier :=
  {| max_depth := max_depth self;
     min_samples_split := min_samples_split self;
     tree := tree self;
     feature_names := feature_names |}.

(** [self.tree = t] *)
Definition set_tree (self : classifier) (t : node) : classifier :=
  {| max_depth := max_depth self;
     min_samples_split := min_samples_split self;
     tree := Some t;
     feature_names := feature_names self |}.

(** [fit]: the instance after the call, and how the call ended. *)
Definition fit (self : classifier) (X : list row) (y : list label)
  (feature_names : option (list string))
  (X_val : option (list row)) (y_val : option (list label))
  : classifier * result unit :=
  let self := set_feature_names self feature_names in
  match _build_tree self X y 0 with
  | Raise e => (self, Raise e)
  | Ok t =>
      match X_val, y_val with
      | Some X_val, Some y_val =>
          let (t', r) := _prune t X_val y_val in (set_tree self t', r)
      | _, _ => (set_tree self t, Ok tt)
      end
  end.

End Labels.

(** ** Notions of the specification *)

Section Specification.

Context {label : Type} `{EqDec label}.

(** A finite sum of rationals. *)
Definition Qsum (l : list Q) : Q := fold_right Qplus 0%Q l.

Definition Qsq (p : Q) : Q := (p * p)%Q.

(** The count a counter holds for a key (0 when the key is absent). *)
Fixpoint count_of (c : counter (label := label)) (k : label) : nat :=
  match c with
  | [] => 0
  | (k', n) :: c' => if eq_dec k' k then n else count_of c' k
  end.

(** The frequency of class [c] in [y]: its number of occurrences divided by
    the length of [y]. *)
Definition class_frequency (y : list label) (c : label) : Q :=
  ratio (count_occ eq_dec y c) (length y).

(** The class frequencies computed by [_gini], in the order of the counter. *)
Definition frequencies (y : list label) : list Q :=
  map (fun count => ratio count (length y)) (map snd (Counter y)).

(** Gini impurity as the specification words it: one minus the sum, over the
    distinct classes, of the squared class frequencies. *)
Definition gini_spec (y : list label) : Q :=
  (1 - Qsum (map (fun c => class_frequency y c ^ 2) (nodup eq_dec y)))%Q.

(** The number of edges on the longest path from the root to a leaf. *)
Fixpoint height (t : node (label := label)) : nat :=
  match t with
  | Leaf _ => 0
  | Node _ _ _ l r => S (Nat.max (height l) (height r))
  end.

(** Every internal node of [t] lies at a depth below [d], the root of [t]
    being at depth [k]. *)
Fixpoint internal_below (d k : Z) (t : node (label := label)) : bool :=
  match t with
  | Leaf _ => true
  | Node _ _ _ l r =>
      (k <? d)%Z && internal_below d (k + 1) l && internal_below d (k + 1) r
  end.

(** The more frequent of the two labels of the list [[a; b]]; on equal
    frequencies the first one. *)
Definition more_frequent (a b : label) : label :=
  if count_occ eq_dec [a; b] a <? count_occ eq_dec [a; b] b then b else a.

(** The number of samples in the two parts of a split. *)
Definition split_size (s : splits (label := label)) : nat :=
  length (snd (fst s)) + length (snd (snd s)).

(** The value of [x] at [feature_index] is present and not [None]. *)
Definition observed (feature_index : nat) (x : row) : bool :=
  match nth_error x feature_index with
  | Some v => negb (is_None v)
  | None => false
  end.

(** Both parts of a split pair each row with a label, and hold only rows
    observed at [feature_index]. *)
Definition split_wf (feature_index : nat) (s : splits (label := label)) : Prop :=
  length (fst (fst s)) = length (snd (fst s))
  /\ length (fst (snd s)) = length (snd (snd s))
  /\ Forall (fun x => observed feature_index x = true) (fst (fst s))
  /\ Forall (fun x => observed feature_index x = true) (fst (snd s)).

(** The candidate recorded in a [best] state is the split of the node's data
    at the recorded feature and threshold, and none of its parts is empty. *)
Definition best_wf (X : list row) (y : list label) (b : best) : Prop :=
  match best_found b with
  | None => True
  | Some (feature_index, threshold, s) =>
      _split_dataset X y feature_index threshold = Ok s
      /\ snd (fst s) <> [] /\ snd (snd s) <> []
  end.

(** A row goes left (right) in a split by equality when its value at
    [feature_index] is observed and equal (unequal) to the threshold. *)
Definition equal_at (feature_index : nat) (threshold : value) (x : row) : bool :=
  match nth_error x feature_index with
  | Some v => veqb v threshold
  | None => false
  end.

Definition goes_left (feature_index : nat) (threshold : value)
  (xy : row * label) : bool :=
  observed feature_index (fst xy) && equal_at feature_index threshold (fst xy).

Definition goes_right (feature_index : nat) (threshold : value)
  (xy : row * label) : bool :=
  observed feature_index (fst xy) && negb (equal_at feature_index threshold (fst xy)).

(** The split by equality as the specification words it. *)
Definition equality_split (feature_index : nat) (threshold : value)
  (rows : list (row * label)) : splits :=
  let on_left := filter (goes_left feature_index threshold) rows in
  let on_right := filter (goes_right feature_index threshold) rows in
  ((map fst on_left, map snd on_left), (map fst on_right, map snd on_right)).

(** Componentwise concatenation of two splits. *)
Definition splits_app (s t : splits (label := label)) : splits :=
  ((fst (fst s) ++ fst (fst t), snd (fst s) ++ snd (fst t)),
   (fst (snd s) ++ fst (snd t), snd (snd s) ++ snd (snd t))).

(** The labels of the validation rows observed at [feature_index], each row
    paired with the label at its own position. *)
Fixpoint aligned_labels (feature_index : nat) (X_val : list row)
  (y_val : list label) : list label :=
  match X_val, y_val with
  | x :: X', l :: y' =>
      if observed feature_index x
      then l :: aligned_labels feature_index X' y'
      else aligned_labels feature_index X' y'
  | _, _ => []
  end.

(** No two rows of the table are equal. *)
Fixpoint rows_distinct (X_val : list row) : bool :=
  match X_val with
  | [] => true
  | x :: X' => forallb (fun r => negb (row_eqb x r)) X' && rows_distinct X'
  end.

(** The label the specification gives a collapsed node. *)
Definition spec_majority_class (feature_index : nat) (X_val : list row)
  (y_val : list label) : result label :=
  match aligned_labels feature_index X_val y_val with
  | [] => majority y_val
  | ls => majority ls
  end.



(** *** Notions used by the further properties *)

(** The labels of the leaves of a tree, left to right. *)
Fixpoint leaf_labels (t : node (label := label)) : list label :=
  match t with
  | Leaf c => [c]
  | Node _ _ _ l r => leaf_labels l ++ leaf_labels r
  end.

(** The number of nodes of a tree. *)
Fixpoint size (t : node (label := label)) : nat :=
  match t with
  | Leaf _ => 1
  | Node _ _ _ l r => S (size l + size r)
  end.

(** The value of [x] at [feature_index] is a number not above [t]. *)
Definition below_at (feature_index : nat) (t : Q) (x : row) : bool :=
  match nth_error x feature_index with
  | Some (VNum q) => Qle_bool q t
  | _ => false
  end.

(** The split at a numeric threshold, as two filters of the paired rows. *)
Definition threshold_split (feature_index : nat) (t : Q)
  (rows : list (row * label)) : splits :=
  let on_left :=
    filter (fun xy => observed feature_index (fst xy)
                      && below_at feature_index t (fst xy)) rows in
  let on_right :=
    filter (fun xy => observed feature_index (fst xy)
                      && negb (below_at feature_index t (fst xy))) rows in
  ((map fst on_left, map snd on_left), (map fst on_right, map snd on_right)).

(** The value of [x] at [feature_index] is present and is [None] or a
    number. *)
Definition numeric_at (feature_index : nat) (x : row) : bool :=
  match nth_error x feature_index with
  | Some VNone => true
  | Some (VNum _) => true
  | _ => false
  end.

(** The impurity gain of a split of a node with labels [y]: parent impurity
    minus the size-weighted impurity of the two parts. *)
Definition gain_of (y : list label) (s : splits (label := label)) : Q :=
  let y_left := snd (fst s) in
  let y_right := snd (snd s) in
  let n := length y_left + length y_right in
  (_gini y - (ratio (length y_left) n * _gini y_left
              + ratio (length y_right) n * _gini y_right))%Q.

(** Both parts of a split hold at least one sample. *)
Definition both_nonempty (s : splits (label := label)) : bool :=
  negb ((length (snd (fst s)) =? 0) || (length (snd (snd s)) =? 0)).

(** What the Split Finder's running state records is sound: the gain is
    not negative; without a candidate it is 0; with one, it is positive, it
    is the gain of the recorded split, and the recorded split is the split of
    the node's data at a candidate threshold of the recorded column. *)
Definition best_sound `{SetOrder} (X : list row) (y : list label) (b : best) : Prop :=
  match best_found b with
  | None => best_gain b = 0%Q
  | Some (feature_index, threshold, s) =>
      (0 < best_gain b)%Q
      /\ (best_gain b == gain_of y s)%Q
      /\ _split_dataset X y feature_index threshold = Ok s
      /\ both_nonempty s = true
      /\ exists x0 values,
           nth_error X 0 = Some x0
           /\ feature_index < length x0
           /\ column_values X feature_index = Ok values
           /\ In threshold (thresholds_of values)
  end.

(** The kind of a column: numbers, or string tokens. *)
Inductive kind : Type :=
| Numeric
| Categorical.

(** A value fits a column kind: it is [None], or of that kind. *)
Definition has_kind (k : kind) (v : value) : bool :=
  match v, k with
  | VNone, _ => true
  | VNum _, Numeric => true
  | VStr _, Categorical => true
  | _, _ => false
  end.

(** A row conforms to a schema: one value per column, each fitting the kind
    of its column. *)
Fixpoint conforms (schema : list kind) (x : row) : bool :=
  match schema, x with
  | [], [] => true
  | k :: schema', v :: x' => has_kind k v && conforms schema' x'
  | _, _ => false
  end.

(** A threshold fits a column kind: a number for a numeric column, a string
    for a categorical one. *)
Definition threshold_fits (k : kind) (threshold : value) : bool :=
  match threshold, k with
  | VNum _, Numeric => true
  | VStr _, Categorical => true
  | _, _ => false
  end.

(** Every internal node of the tree tests a column of the schema against a
    threshold that fits the kind of the column. *)
Fixpoint tree_typed (schema : list kind) (t : node (label := label)) : bool :=
  match t with
  | Leaf _ => true
  | Node f _ threshold l r =>
      match nth_error schema f with
      | Some k => threshold_fits k threshold
      | None => false
      end
      && tree_typed schema l && tree_typed schema r
  end.

(** A validation set the Pruner can work with: rows that conform to the
    schema, a label for every row, and at least one label.  No validation set
    (one of the two arguments is [None]) is fine as well. *)
Definition validation_ok (schema : list kind)
  (X_val : option (list row)) (y_val : option (list label)) : bool :=
  match X_val, y_val with
  | Some X_val, Some y_val =>
      forallb (conforms schema) X_val
      && (length X_val <=? length y_val)
      && negb (length y_val =? 0)
  | _, _ => true
  end.

(** The labels of the validation set the Pruner is given, if any. *)
Definition validation_labels (X_val : option (list row))
  (y_val : option (list label)) : list label :=
  match X_val, y_val with
  | Some _, Some y_val => y_val
  | _, _ => []
  end.

(** The feature-name list, when one is given and is not empty, names every
    column of the schema. *)
Definition names_cover (schema : list kind) (names : option (list string)) : bool :=
  match names with
  | None => true
  | Some [] => true
  | Some names => length schema <=? length names
  end.

(** A value the arithmetic of the Split Finder takes without
    [OverflowError]: a number of absolute value at most 2^1023, so that the
    sum of two such integers, halved, still converts to a double. *)
Definition in_range (v : value) : bool :=
  match v with
  | VNum q =>
      Qle_bool (- inject_Z (2 ^ 1023)) q && Qle_bool q (inject_Z (2 ^ 1023))
  | _ => true
  end.

Definition table_in_range (X : list row) : bool := forallb (forallb in_range) X.

(** A number of labels up to which the recursion of the Tree Builder, which
    nests at most one call for each label, and that of the Predictor and the
    Pruner along the tree it returns, stay within the default limit of the
    interpreter, 1000 nested calls. *)
Definition recursion_bound : nat := 500.

End Specification.

(** ** Concrete data used by the examples *)

(** Sets iterated in insertion order. *)
#[export] Instance insertion_order : SetOrder :=
  {| set_iter := fun l => l; set_iter_perm := fun l => Permutation_refl l |}.

Module Data.

Open Scope string_scope.

Definition num (z : Z) : value := VNum (inject_Z z).

(** A fresh instance, [DecisionTreeClassifier()]. *)
Definition clf : classifier (label := string) := __init__ None 2.

(** Four training rows over two numeric features, three classes. *)
Definition X_train : list row :=
  [[num 0; num 0]; [num 0; num 1]; [num 1; num 0]; [num 1; num 1]].
Definition y_train : list string := ["A"; "A"; "B"; "C"].

(** Two rows over one numeric feature, two classes. *)
Definition X_two : list row := [[num 0]; [num 1]].
Definition y_two : list string := ["A"; "B"].

(** A validation set with a repeated row. *)
Definition X_dup : list row := [[num 0]; [num 0]; [num 0]].
Definition y_dup : list string := ["A"; "B"; "B"].

(** A column that mixes a number and a string token. *)
Definition X_mixed : list row := [[num 1]; [VStr "a"]].
Definition y_mixed : list string := ["A"; "B"].


(** A sample whose only feature is missing. *)
Definition sample_missing : row := [VNone].

(** The weather table: outlook, humidity, temperature, windy. *)
Definition weather_schema : list kind :=
  [Categorical; Categorical; Numeric; Categorical].

Definition X_weather : list row :=
  [[VStr "Sunny"; VStr "High"; num 85; VStr "False"];
   [VStr "Sunny"; VStr "High"; num 80; VStr "True"];
   [VStr "Overcast"; VNone; num 83; VStr "False"];
   [VStr "Rainy"; VStr "High"; num 70; VStr "False"];
   [VStr "Rainy"; VStr "Normal"; num 68; VStr "False"];
   [VStr "Rainy"; VStr "Normal"; num 65; VStr "True"];
   [VStr "Overcast"; VStr "Normal"; num 64; VStr "True"];
   [VStr "Sunny"; VStr "Normal"; num 72; VStr "False"]].

Definition y_weather : list string :=
  ["No"; "No"; "Yes"; "Yes"; "Yes"; "No"; "Yes"; "Yes"].

Definition names_weather : list string :=
  ["Outlook"; "Humidity"; "Temperature"; "Windy"].

Definition sample_weather : row :=
  [VStr "Rainy"; VStr "Normal"; num 70; VStr "False"].

(** [DecisionTreeClassifier(max_depth=3)] *)
Definition clf3 : classifier (label := string) := __init__ (Some 3%Z) 2.

(** Two labels of equal frequency, "B" met first. *)
Definition y_tie : list string := ["B"; "A"; "A"; "B"].

(** A validation set for the weather table. *)
Definition X_weather_val : list row :=
  [[VStr "Sunny"; VNone; num 75; VStr "False"];
   [VStr "Rainy"; VStr "High"; num 66; VStr "True"]].
Definition y_weather_val : list string := ["Yes"; "No"].

End Data.

(** ** Generic facts: the result monad and loops *)

Lemma bind_Ok {A B : Type} (m : result A) (k : A -> result B) (b : B) :
  bind m k = Ok b -> exists a, m = Ok a /\ k a = Ok b.
Proof.
  destruct m as [a|e]; simpl; intros E; [exists a; auto | discriminate].
Qed.

(** Invariant rule for loops: a property that holds initially and is kept by
    every iteration that does not raise holds of the final state. *)
Lemma for_each_invariant {S A : Type} (body : S -> A -> result S) (I : S -> Prop) :
  forall (l : list A) (s s' : S),
    (forall s1 a s2, In a l -> I s1 -> body s1 a = Ok s2 -> I s2) ->
    I s -> for_each body l s = Ok s' -> I s'.
Proof.
  induction l as [|a l IH]; simpl; intros s s' Hbody Hs E.
  - inversion E; subst; assumption.
  - apply bind_Ok in E. destruct E as (s1 & E1 & E2).
    apply (IH s1 s'); eauto.
Qed.

Lemma comprehension_length {A B : Type} (f : A -> result B) :
  forall (l : list A) (bs : list B),
    comprehension f l = Ok bs -> length bs = length l.
Proof.
  induction l as [|a l IH]; simpl; intros bs E.
  - inversion E; reflexivity.
  - apply bind_Ok in E. destruct E as (b & _ & E).
    apply bind_Ok in E. destruct E as (bs' & E' & E).
    inversion E; subst; simpl. f_equal. eauto.
Qed.

(** ** Facts about rational sums *)

Lemma py_sum_from (l : list Q) (a : Q) : (fold_left Qplus l a == a + Qsum l)%Q.
Proof.
  revert a; induction l as [|q l IH]; intros a; simpl.
  - ring.
  - rewrite IH. ring.
Qed.

Lemma py_sum_Qsum (l : list Q) : (py_sum l == Qsum l)%Q.
Proof. unfold py_sum. rewrite py_sum_from. ring. Qed.

Lemma Qsum_Permutation (l l' : list Q) : Permutation l l' -> (Qsum l == Qsum l')%Q.
Proof.
  induction 1; simpl.
  - reflexivity.
  - rewrite IHPermutation. reflexivity.
  - ring.
  - etransitivity; eassumption.
Qed.

Lemma Qsum_nonneg (l : list Q) : Forall (fun p => 0 <= p)%Q l -> (0 <= Qsum l)%Q.
Proof.
  induction 1; simpl; [apply Qle_refl | lra].
Qed.

(** The sum of squares of non-negative numbers is at most the square of their
    sum. *)
Lemma Qsum_squares_upper (l : list Q) :
  Forall (fun p => 0 <= p)%Q l -> (Qsum (map Qsq l) <= Qsum l * Qsum l)%Q.
Proof.
  induction 1 as [|p l Hp Hl IH]; simpl.
  - lra.
  - pose proof (Qsum_nonneg Hl) as Hs. unfold Qsq at 1.
    assert (0 <= p * Qsum l)%Q by (apply Qmult_le_0_compat; assumption).
    nra.
Qed.

(** Expansion of the sum of squared deviations from [t]. *)
Lemma Qsum_deviation (l : list Q) (t : Q) :
  (Qsum (map (fun p => Qsq (p - t)) l)
   == Qsum (map Qsq l) - 2 * t * Qsum l + inject_Z (Z.of_nat (length l)) * (t * t))%Q.
Proof.
  induction l as [|p l IH].
  - simpl. ring.
  - cbn [map Qsum fold_right length]. fold (Qsum (map (fun p => Qsq (p - t)) l)).
    fold (Qsum (map Qsq l)). fold (Qsum l). rewrite IH.
    rewrite Nat2Z.inj_succ, <- Z.add_1_r, inject_Z_plus. unfold Qsq. simpl (inject_Z 1). ring.
Qed.

Lemma Qsq_nonneg (x : Q) : (0 <= Qsq x)%Q.
Proof.
  destruct x as [a b]. unfold Qsq, Qle, Qmult. simpl.
  rewrite Z.mul_1_r. apply Z.square_nonneg.
Qed.

Lemma Qsum_deviation_nonneg (l : list Q) (t : Q) :
  (0 <= Qsum (map (fun p => Qsq (p - t)) l))%Q.
Proof.
  apply Qsum_nonneg. apply Forall_forall. intros q Hq.
  apply in_map_iff in Hq. destruct Hq as (p & <- & _).
  apply Qsq_nonneg.
Qed.

(** Numbers that sum to one have squares summing to at least the inverse of
    their count. *)
Lemma Qsum_squares_lower (l : list Q) :
  (Qsum l == 1)%Q -> l <> [] ->
  (1 / inject_Z (Z.of_nat (length l)) <= Qsum (map Qsq l))%Q.
Proof.
  intros Hsum Hne.
  set (k := inject_Z (Z.of_nat (length l))).
  assert (Hk : (0 < k)%Q).
  { unfold k. destruct l; [congruence|]. simpl length.
    rewrite <- (Zlt_Qlt 0). unfold Qlt; simpl. lia. }
  pose proof (Qsum_deviation_nonneg l (1 / k)) as Hdev.
  rewrite Qsum_deviation in Hdev. fold k in Hdev. rewrite Hsum in Hdev.
  assert (E : (k * (1 / k * (1 / k)) == 1 / k)%Q) by (field; lra).
  rewrite E in Hdev. lra.
Qed.

(** ** Facts about [Counter] *)

Section CounterFacts.

Context {label : Type} `{EqDec label}.

Implicit Types (c : counter (label := label)) (y : list label).

Lemma count_of_add c x k :
  count_of (counter_add c x) k = count_of c k + (if eq_dec x k then 1 else 0).
Proof.
  induction c as [|[k' n] c IH]; simpl.
  - reflexivity.
  - destruct (eq_dec k' x) as [->|Hne]; simpl.
    + destruct (eq_dec x k); lia.
    + destruct (eq_dec k' k) as [->|Hk].
      * destruct (eq_dec x k); [congruence | lia].
      * exact IH.
Qed.

Lemma keys_add c x k :
  In k (map fst (counter_add c x)) <-> In k (map fst c) \/ k = x.
Proof.
  induction c as [|[k' n] c IH]; simpl.
  - intuition.
  - destruct (eq_dec k' x) as [->|Hne]; simpl; intuition.
Qed.

Lemma keys_add_NoDup c x :
  NoDup (map fst c) -> NoDup (map fst (counter_add c x)).
Proof.
  induction c as [|[k' n] c IH]; simpl; intros Hnd.
  - constructor; [intros [] | constructor].
  - inversion Hnd as [|? ? Hnotin Hnd']; subst.
    destruct (eq_dec k' x) as [->|Hne]; simpl.
    + constructor; assumption.
    + constructor; [|auto].
      rewrite keys_add. intros [Hin | ->]; [auto | congruence].
Qed.

Lemma total_add c x :
  list_sum (map snd (counter_add c x)) = S (list_sum (map snd c)).
Proof.
  induction c as [|[k' n] c IH]; simpl.
  - reflexivity.
  - destruct (eq_dec k' x); simpl; lia.
Qed.

(** The counter after the loop over [y], started from [c]. *)
Lemma fold_count_of y : forall c k,
  count_of (fold_left counter_add y c) k = count_of c k + count_occ eq_dec y k.
Proof.
  induction y as [|x y IH]; intros c k; simpl.
  - lia.
  - rewrite IH, count_of_add. destruct (eq_dec x k); lia.
Qed.

Lemma fold_keys y : forall c k,
  In k (map fst (fold_left counter_add y c)) <-> In k (map fst c) \/ In k y.
Proof.
  induction y as [|x y IH]; intros c k; simpl.
  - intuition.
  - rewrite IH, keys_add. intuition.
Qed.

Lemma fold_keys_NoDup y : forall c,
  NoDup (map fst c) -> NoDup (map fst (fold_left counter_add y c)).
Proof.
  induction y as [|x y IH]; intros c Hnd; simpl; auto using keys_add_NoDup.
Qed.

Lemma fold_total y : forall c,
  list_sum (map snd (fold_left counter_add y c)) = list_sum (map snd c) + length y.
Proof.
  induction y as [|x y IH]; intros c; simpl.
  - lia.
  - rewrite IH, total_add. lia.
Qed.

Lemma count_of_entry c k n :
  NoDup (map fst c) -> In (k, n) c -> count_of c k = n.
Proof.
  induction c as [|[k' n'] c IH]; simpl; intros Hnd Hin; [contradiction|].
  inversion Hnd as [|? ? Hnotin Hnd']; subst.
  destruct Hin as [E | Hin].
  - inversion E; subst. destruct (eq_dec k k); congruence.
  - destruct (eq_dec k' k) as [->|Hne]; [|auto].
    exfalso. apply Hnotin. apply in_map_iff. exists (k, n). auto.
Qed.

Lemma Counter_keys_NoDup y : NoDup (map fst (Counter y)).
Proof. apply fold_keys_NoDup. constructor. Qed.

Lemma Counter_keys y k : In k (map fst (Counter y)) <-> In k y.
Proof. unfold Counter. rewrite fold_keys. simpl. intuition. Qed.

(** Each item of [Counter(y)] pairs a label with its number of occurrences. *)
Lemma Counter_entry y k n : In (k, n) (Counter y) -> n = count_occ eq_dec y k.
Proof.
  intros Hin. apply count_of_entry in Hin; [|apply Counter_keys_NoDup].
  rewrite <- Hin. unfold Counter. rewrite fold_count_of. reflexivity.
Qed.

Lemma Counter_values y :
  map snd (Counter y) = map (count_occ eq_dec y) (map fst (Counter y)).
Proof.
  assert (G : forall c, (forall k n, In (k, n) c -> n = count_occ eq_dec y k) ->
                        map snd c = map (count_occ eq_dec y) (map fst c)).
  { induction c as [|[k n] c IH]; simpl; intros Hc; [reflexivity|].
    f_equal; [apply Hc; auto | apply IH; intros; apply Hc; auto]. }
  apply G. intros k n. apply Counter_entry.
Qed.

(** The keys of [Counter(y)] are the distinct labels of [y]. *)
Lemma Counter_keys_nodup y : Permutation (map fst (Counter y)) (nodup eq_dec y).
Proof.
  apply NoDup_Permutation.
  - apply Counter_keys_NoDup.
  - apply NoDup_nodup.
  - intros k. rewrite Counter_keys, nodup_In. reflexivity.
Qed.

Lemma Counter_total y : list_sum (map snd (Counter y)) = length y.
Proof. unfold Counter. rewrite fold_total. reflexivity. Qed.

Lemma num_distinct_nodup y : num_distinct y = length (nodup eq_dec y).
Proof.
  unfold num_distinct. rewrite <- (length_map fst).
  apply Permutation_length, Counter_keys_nodup.
Qed.

Lemma Counter_nil_iff y : Counter y = [] <-> y = [].
Proof.
  split; [|intros ->; reflexivity].
  intros E. destruct y as [|x y]; [reflexivity|].
  assert (Hin : In x (map fst (Counter (x :: y)))) by (apply Counter_keys; left; reflexivity).
  rewrite E in Hin. contradiction.
Qed.

End CounterFacts.

(** ** Impurity Evaluator *)

Section Impurity.

Context {label : Type} `{EqDec label}.

Implicit Types (y : list label).

Lemma Qpower_2 (x : Q) : (x ^ 2 == Qsq x)%Q.
Proof. reflexivity. Qed.

Lemma ratio_nonneg (a b : nat) : (0 <= ratio a b)%Q.
Proof.
  unfold ratio, Qdiv. apply Qmult_le_0_compat.
  - rewrite <- (Zle_Qle 0). lia.
  - apply Qinv_le_0_compat. rewrite <- (Zle_Qle 0). lia.
Qed.

Lemma ratio_sum (cs : list nat) (n : nat) :
  (Qsum (map (fun c => ratio c n) cs) == ratio (list_sum cs) n)%Q.
Proof.
  induction cs as [|c cs IH]; simpl.
  - unfold ratio, Qdiv. simpl. ring.
  - rewrite IH. unfold ratio, Qdiv.
    rewrite Nat2Z.inj_add, inject_Z_plus. ring.
Qed.

Lemma ratio_self (n : nat) : 0 < n -> (ratio n n == 1)%Q.
Proof.
  intros Hn. unfold ratio. field.
  intros E. apply (inject_Z_injective (Z.of_nat n) 0) in E. lia.
Qed.

Lemma frequencies_nonneg y : Forall (fun p => 0 <= p)%Q (frequencies y).
Proof.
  apply Forall_forall. intros p Hp. unfold frequencies in Hp.
  apply in_map_iff in Hp. destruct Hp as (c & <- & _). apply ratio_nonneg.
Qed.

Lemma frequencies_sum y : y <> [] -> (Qsum (frequencies y) == 1)%Q.
Proof.
  intros Hne. unfold frequencies. rewrite ratio_sum, Counter_total.
  apply ratio_self. destruct y; [congruence | simpl; lia].
Qed.

Lemma frequencies_length y : length (frequencies y) = length (nodup eq_dec y).
Proof.
  unfold frequencies. rewrite !length_map. apply num_distinct_nodup.
Qed.

Lemma gini_frequencies y : (_gini y == 1 - Qsum (map Qsq (frequencies y)))%Q.
Proof.
  unfold _gini, frequencies. rewrite py_sum_Qsum, !map_map. reflexivity.
Qed.

(** [_gini] computes the Gini impurity of the specification. *)
Lemma gini_refines y : (_gini y == gini_spec y)%Q.
Proof.
  unfold _gini, gini_spec. rewrite py_sum_Qsum, Counter_values, map_map.
  apply Qplus_comp; [reflexivity|]. apply Qopp_comp.
  apply Qsum_Permutation. unfold class_frequency.
  apply (Permutation_map (fun c => ratio (count_occ eq_dec y c) (length y) ^ 2)%Q).
  apply Counter_keys_nodup.
Qed.

(** The exact value of the expression the Impurity Evaluator evaluates: for
    a non-empty label vector it is 1 - sum of p_i^2, with p_i the count of
    class i divided by the length of the vector; it is 0 when the vector has
    a single distinct label, and it lies in [0, 1 - 1/k] for k distinct
    labels.  The program evaluates the expression in double precision, so
    what it returns is this value up to rounding: for three labels that
    occur once each it returns the double next to 2/3, which lies above
    2/3. *)
Theorem gini_impurity_formula_and_bounds y :
  y <> [] ->
  (_gini y == gini_spec y)%Q
  /\ (length (nodup eq_dec y) = 1 -> (_gini y == 0)%Q)
  /\ (0 <= _gini y)%Q
  /\ (_gini y <= 1 - 1 / inject_Z (Z.of_nat (length (nodup eq_dec y))))%Q.
Proof.
  intros Hne.
  pose proof (frequencies_sum Hne) as Hsum.
  pose proof (Qsum_squares_upper (frequencies_nonneg y)) as Hup.
  assert (Hfne : frequencies y <> []).
  { intros E. apply (f_equal (@length Q)) in E.
    rewrite frequencies_length in E. destruct y as [|x y]; [congruence|].
    assert (Hin : In x (nodup eq_dec (x :: y))) by (apply nodup_In; left; reflexivity).
    destruct (nodup eq_dec (x :: y)); [contradiction | discriminate]. }
  pose proof (Qsum_squares_lower Hsum Hfne) as Hlow.
  rewrite frequencies_length in Hlow.
  rewrite Hsum in Hup.
  assert (Hnonneg : (0 <= _gini y)%Q) by (rewrite gini_frequencies; lra).
  assert (Hle : (_gini y <= 1 - 1 / inject_Z (Z.of_nat (length (nodup eq_dec y))))%Q)
    by (rewrite gini_frequencies; lra).
  repeat split; try assumption.
  - apply gini_refines.
  - intros Hone. rewrite Hone in Hle. simpl in Hle.
    apply Qle_antisym; [|assumption].
    setoid_replace 0%Q with (1 - 1 / 1)%Q by field. exact Hle.
Qed.

End Impurity.

(** ** Majority vote *)

Section Majority.

Context {label : Type} `{EqDec label}.

Implicit Types (y : list label).

Lemma majority_nil : majority (@nil label) = Raise IndexError.
Proof. reflexivity. Qed.

(** On a non-empty vector the vote returns one of its labels. *)
Lemma majority_nonempty y : y <> [] -> exists k, majority y = Ok k.
Proof.
  intros Hne. unfold majority, most_common1.
  destruct (Counter y) as [|item c] eqn:E.
  - apply Counter_nil_iff in E. contradiction.
  - simpl. eexists. reflexivity.
Qed.

(** The frequency tally of a two-element list returns its first element. *)
Lemma majority_pair (a b : label) : majority [a; b] = Ok a.
Proof.
  unfold majority, Counter. simpl.
  destruct (eq_dec a b); reflexivity.
Qed.

Lemma more_frequent_left (a b : label) : more_frequent a b = a.
Proof.
  unfold more_frequent. simpl.
  destruct (eq_dec a a) as [_|N]; [|congruence].
  destruct (eq_dec b a) as [->|Hba].
  - destruct (eq_dec a a); reflexivity.
  - destruct (eq_dec a b) as [->|_]; [congruence|].
    destruct (eq_dec b b) as [_|N]; [reflexivity | congruence].
Qed.


End Majority.

(** ** Predictor *)

Section Predictor.

Context {label : Type} `{EqDec label}.

(** C8: when the sample's value at an internal node's feature index is
    missing, the Predictor returns the more frequent of the left-branch and
    right-branch predictions, the left one when they differ (and hence the
    agreed label when they agree). *)
Theorem predict_missing_value_votes
  (feature_index : nat) (name : option string) (threshold : value)
  (left_node right_node : node) (sample : row) (a b : label) :
  nth_error sample feature_index = Some VNone ->
  _predict_sample left_node sample = Ok a ->
  _predict_sample right_node sample = Ok b ->
  let nd := Node feature_index name threshold left_node right_node in
  _predict_sample nd sample = Ok (more_frequent a b)
  /\ (a <> b -> _predict_sample nd sample = Ok a)
  /\ (a = b -> _predict_sample nd sample = Ok b).
Proof.
  intros Hval Hl Hr nd.
  assert (E : _predict_sample nd sample = Ok a).
  { unfold nd. simpl. unfold index. rewrite Hval. simpl.
    rewrite Hl, Hr. simpl. apply majority_pair. }
  rewrite more_frequent_left. repeat split; intros; subst; assumption.
Qed.

End Predictor.

(** ** Split Finder *)

Section SplitFinder.

Context {label : Type} `{EqDec label} `{SetOrder}.

Implicit Types (X : list row) (y : list label) (s : splits (label := label)).

(** An iteration that does not raise leaves the split as it is, or appends
    an observed row to one side. *)
Lemma split_step_cases f th s xi (yi : label) s' :
  split_step f th s (xi, yi) = Ok s' ->
  s' = s
  \/ (observed f xi = true /\ (s' = append_left s xi yi \/ s' = append_right s xi yi)).
Proof.
  unfold split_step, index, observed.
  destruct (nth_error xi f) as [val|]; simpl; [|discriminate].
  destruct (is_None val) eqn:Hnone; simpl.
  - intros E; inversion E; auto.
  - destruct th as [|t|t]; simpl.
    + destruct (veqb val VNone); intros E; inversion E; auto.
    + destruct (le_number val t) as [[|]|e]; simpl; intros E; inversion E; auto.
    + destruct (veqb val (VStr t)); intros E; inversion E; auto.
Qed.

Lemma split_loop_size f th (l : list (row * label)) : forall s s',
  for_each (split_step f th) l s = Ok s' ->
  split_size s' <= split_size s + length l.
Proof.
  induction l as [|[xi yi] l IH]; simpl; intros s s' E.
  - inversion E; subst; lia.
  - apply bind_Ok in E. destruct E as (s1 & E1 & E2).
    apply IH in E2. apply split_step_cases in E1.
    assert (split_size s1 <= S (split_size s)); [|lia].
    destruct s as [[Xl yl] [Xr yr]].
    destruct E1 as [->|(_ & [->| ->])]; unfold split_size; simpl;
      rewrite ?length_app; simpl; lia.
Qed.

Lemma split_loop_wf f th (l : list (row * label)) s s' :
  split_wf f s -> for_each (split_step f th) l s = Ok s' -> split_wf f s'.
Proof.
  intros Hs E.
  apply (for_each_invariant (split_step f th) (split_wf f) l s); auto.
  clear. intros s1 [xi yi] s2 _ (Hl & Hr & Ol & Or) E.
  apply split_step_cases in E. destruct s1 as [[Xl yl] [Xr yr]]. simpl in *.
  destruct E as [->|(Hobs & [->| ->])]; unfold split_wf; simpl;
    rewrite ?length_app; simpl; repeat split; auto;
    apply Forall_app; split; auto.
Qed.

(** What [_split_dataset] returns: two parts of rows with their labels, all
    observed at the split feature, with no more samples than were given. *)
Lemma split_dataset_facts X y f th s :
  _split_dataset X y f th = Ok s ->
  split_wf f s /\ split_size s <= length X /\ split_size s <= length y.
Proof.
  unfold _split_dataset. intros E. split.
  - eapply split_loop_wf; [|exact E].
    repeat split; constructor.
  - apply split_loop_size in E. unfold split_size in E at 2. simpl in E.
    rewrite length_combine in E. lia.
Qed.

Lemma try_threshold_wf X y base f b th b' :
  best_wf X y b -> try_threshold X y base f b th = Ok b' -> best_wf X y b'.
Proof.
  unfold try_threshold. intros Hb E.
  apply bind_Ok in E. destruct E as (s & Es & E).
  destruct s as [[Xl yl] [Xr yr]].
  destruct ((length yl =? 0) || (length yr =? 0)) eqn:Hempty.
  - inversion E; subst; assumption.
  - apply orb_false_iff in Hempty. destruct Hempty as [Hl Hr].
    apply Nat.eqb_neq in Hl, Hr.
    match type of E with
    | (if ?c then _ else _) = _ => destruct c
    end; inversion E; subst; [|assumption].
    unfold best_wf. simpl. repeat split; auto.
    + intros ->. auto.
    + intros ->. auto.
Qed.

Lemma try_feature_wf X y base b f b' :
  best_wf X y b -> try_feature X y base b f = Ok b' -> best_wf X y b'.
Proof.
  unfold try_feature. intros Hb E.
  apply bind_Ok in E. destruct E as (values & _ & E).
  apply (for_each_invariant (try_threshold X y base f) (best_wf X y)
           (thresholds_of values) b); auto.
  intros s1 th s2 _. apply try_threshold_wf.
Qed.

Lemma best_split_wf X y b : _best_split X y = Ok b -> best_wf X y b.
Proof.
  unfold _best_split. intros E.
  apply bind_Ok in E. destruct E as (x0 & _ & E).
  apply (for_each_invariant (try_feature X y (_gini y)) (best_wf X y)
           (seq 0 (length x0)) {| best_gain := 0; best_found := None |}); auto.
  - intros s1 f s2 _. apply try_feature_wf.
  - exact I.
Qed.

(** The split chosen by the Split Finder has two non-empty parts whose rows
    are observed at the split feature; each part holds strictly fewer
    samples than the node. *)
Lemma best_split_decreases X y b f th Xl (yl : list label) Xr (yr : list label) :
  _best_split X y = Ok b ->
  best_found b = Some (f, th, ((Xl, yl), (Xr, yr))) ->
  yl <> [] /\ yr <> []
  /\ length Xl = length yl /\ length Xr = length yr
  /\ Forall (fun x => observed f x = true) Xl
  /\ Forall (fun x => observed f x = true) Xr
  /\ length Xl < length X /\ length Xr < length X
  /\ length yl < length y /\ length yr < length y.
Proof.
  intros Eb Ef. apply best_split_wf in Eb. unfold best_wf in Eb.
  rewrite Ef in Eb. simpl in Eb. destruct Eb as (Es & Hl & Hr).
  apply split_dataset_facts in Es.
  destruct Es as ((El & Er & Ol & Or) & HsizeX & Hsize).
  unfold split_size in HsizeX, Hsize. simpl in *.
  assert (0 < length yl) by (destruct yl; [congruence | simpl; lia]).
  assert (0 < length yr) by (destruct yr; [congruence | simpl; lia]).
  repeat split; auto; lia.
Qed.

(** *** Categorical columns *)

Lemma distinct_incl (l : list value) (v : value) : In v (distinct l) -> In v l.
Proof.
  induction l as [|w l IH]; simpl; [auto|].
  intros [E|Hin]; [auto|]. apply filter_In in Hin. tauto.
Qed.

(** For a column with a non-numeric observed value, the candidates are the
    distinct observed values themselves, in the iteration order of the set. *)
Lemma thresholds_categorical (values : list value) :
  forallb is_number (distinct values) = false ->
  Permutation (thresholds_of values) (distinct values)
  /\ forall th, In th (thresholds_of values) -> In th values.
Proof.
  intros Hcat. unfold thresholds_of. rewrite Hcat. split.
  - apply set_iter_perm.
  - intros th Hin. apply distinct_incl.
    apply (Permutation_in _ (set_iter_perm _) Hin).
Qed.

(** The loop of [_split_dataset] at a non-numeric threshold appends the split
    by equality of the remaining rows, provided every row has the column. *)
Lemma split_loop_equality f th (l : list (row * label)) : forall s,
  is_number th = false ->
  Forall (fun xy => f < length (fst xy)) l ->
  for_each (split_step f th) l s = Ok (splits_app s (equality_split f th l)).
Proof.
  intros s Hth Hrows. revert s.
  induction Hrows as [|[xi yi] l Hlen Hrows IH]; intros s.
  - destruct s as [[Xl yl] [Xr yr]]. unfold splits_app. simpl.
    rewrite !app_nil_r. reflexivity.
  - simpl in Hlen. apply nth_error_Some in Hlen.
    destruct (nth_error xi f) as [val|] eqn:Hval; [clear Hlen | congruence].
    cbn [for_each]. unfold split_step at 1, index. rewrite Hval. simpl.
    assert (HL : goes_left f th (xi, yi) = negb (is_None val) && veqb val th)
      by (unfold goes_left, observed, equal_at; simpl; rewrite Hval; reflexivity).
    assert (HR : goes_right f th (xi, yi) = negb (is_None val) && negb (veqb val th))
      by (unfold goes_right, observed, equal_at; simpl; rewrite Hval; reflexivity).
    unfold equality_split. cbn [filter]. rewrite HL, HR. clear HL HR.
    fold (equality_split f th l).
    destruct (is_None val) eqn:Hnone; simpl.
    + apply IH.
    + assert (Hstep :
        match th with
        | VNum t =>
            b <- le_number val t ;;
            (if b : bool then Ok (append_left s xi yi) else Ok (append_right s xi yi))
        | _ =>
            if veqb val th then Ok (append_left s xi yi)
            else Ok (append_right s xi yi)
        end
        = (if veqb val th then Ok (append_left s xi yi)
           else Ok (append_right s xi yi)))
        by (destruct th; [reflexivity | discriminate | reflexivity]).
      rewrite Hstep. clear Hstep.
      destruct s as [[Xl yl] [Xr yr]].
      destruct (veqb val th); simpl; rewrite IH; unfold splits_app, equality_split;
        simpl; rewrite <- !app_assoc; reflexivity.
Qed.

(** At a non-numeric threshold, [_split_dataset] puts a row on the left
    exactly when its observed value equals the threshold and on the right
    exactly when it differs. *)
Lemma split_dataset_categorical X y f th :
  is_number th = false ->
  Forall (fun x => f < length x) X ->
  _split_dataset X y f th = Ok (equality_split f th (combine X y)).
Proof.
  intros Hth Hrows. unfold _split_dataset.
  rewrite split_loop_equality; [reflexivity | assumption |].
  apply Forall_forall. intros [x yi] Hin. simpl.
  apply in_combine_l in Hin. rewrite Forall_forall in Hrows. auto.
Qed.

End SplitFinder.

(** ** Tree Builder *)

Section TreeBuilder.

Context {label : Type} `{EqDec label} `{SetOrder}.

Implicit Types (self : classifier (label := label)) (X : list row) (y : list label).

Lemma make_leaf_is_leaf y (t : node) :
  make_leaf y = Ok t -> exists c, t = Leaf c.
Proof.
  unfold make_leaf. intros E. apply bind_Ok in E.
  destruct E as (c & _ & E). inversion E. eauto.
Qed.

(** Case analysis that follows the branches of [_build_tree_fuel]. *)
Ltac build_tree_cases X y :=
  simpl;
  match goal with
  | |- context [if ?c then Some (make_leaf y) else _] => destruct c eqn:Hstop
  end;
  [|destruct (_best_split X y) as [b|e] eqn:Hbest;
    [destruct (Qeq_bool (best_gain b) 0) eqn:Hgain;
     [|destruct (best_found b) as [[[f th] [[Xl yl] [Xr yr]]]|] eqn:Hfound]|]].

(** A failure of the Split Finder at a node that is split is the failure of
    the Tree Builder. *)
Lemma build_tree_split_fails self X y depth e :
  depth_reached self depth || (num_distinct y =? 1)
  || (Z.of_nat (length y) <? min_samples_split self)%Z = false ->
  _best_split X y = Raise e ->
  _build_tree self X y depth = Raise e.
Proof.
  intros Hstop Hbest. unfold _build_tree. simpl.
  rewrite Hstop, Hbest. reflexivity.
Qed.

(** A recursion budget larger than the number of labels is never exhausted:
    each recursive call is on a part with strictly fewer labels. *)
Lemma build_tree_fuel_enough fuel : forall self X y depth,
  length y < fuel -> exists r, _build_tree_fuel fuel self X y depth = Some r.
Proof.
  induction fuel as [|fuel IH]; intros self X y depth Hlen; [lia|].
  build_tree_cases X y; eauto.
  pose proof (best_split_decreases _ _ Hbest Hfound) as Hdec.
  destruct Hdec as (_ & _ & _ & _ & _ & _ & _ & _ & Hl & Hr).
  assert (Hel : exists r, _build_tree_fuel fuel self Xl yl (depth + 1) = Some r)
    by (apply IH; lia).
  assert (Her : exists r, _build_tree_fuel fuel self Xr yr (depth + 1) = Some r)
    by (apply IH; lia).
  destruct Hel as (rl & El). destruct Her as (rr & Er).
  rewrite El. destruct rl as [tl|e]; eauto.
  rewrite Er. destruct rr as [tr|e]; eauto.
Qed.

(** The result does not depend on the budget, once it suffices. *)
Lemma build_tree_fuel_mono fuel : forall fuel' self X y depth r,
  _build_tree_fuel fuel self X y depth = Some r -> fuel <= fuel' ->
  _build_tree_fuel fuel' self X y depth = Some r.
Proof.
  induction fuel as [|fuel IH]; intros fuel' self X y depth r E Hle;
    [discriminate|].
  destruct fuel' as [|fuel']; [lia|].
  revert E. build_tree_cases X y; auto.
  destruct (_build_tree_fuel fuel self Xl yl (depth + 1)) as [rl|] eqn:El;
    [|discriminate].
  rewrite (IH fuel' _ _ _ _ _ El) by lia.
  destruct rl as [tl|e]; auto.
  destruct (_build_tree_fuel fuel self Xr yr (depth + 1)) as [rr|] eqn:Er;
    [|discriminate].
  rewrite (IH fuel' _ _ _ _ _ Er) by lia.
  auto.
Qed.

(** C9: the Tree Builder terminates, with or without a configured max_depth:
    every recursion budget above the number of labels yields the result of
    [_build_tree]; and whenever the Split Finder chooses a split, its two
    parts are non-empty, hold only rows observed (not missing) at the split
    feature, and each holds strictly fewer samples than the node. *)
Theorem build_tree_terminates self X y depth fuel :
  length y < fuel ->
  _build_tree_fuel fuel self X y depth = Some (_build_tree self X y depth)
  /\ match _best_split X y with
     | Ok b =>
         match best_found b with
         | Some (f, _, ((Xl, yl), (Xr, yr))) =>
             yl <> [] /\ yr <> []
             /\ Forall (fun x => observed f x = true) Xl
             /\ Forall (fun x => observed f x = true) Xr
             /\ length Xl = length yl /\ length Xr = length yr
             /\ length Xl < length X /\ length Xr < length X
             /\ length yl < length y /\ length yr < length y
         | None => True
         end
     | Raise _ => True
     end.
Proof.
  intros Hlen. split.
  - unfold _build_tree.
    assert (Hen : exists r, _build_tree_fuel (S (length y)) self X y depth = Some r)
      by (apply build_tree_fuel_enough; lia).
    destruct Hen as (r & Er).
    rewrite Er. apply build_tree_fuel_mono with (fuel := S (length y)); [assumption | lia].
  - destruct (_best_split X y) as [b|e] eqn:Hbest; [|exact I].
    destruct (best_found b) as [[[f th] [[Xl yl] [Xr yr]]]|] eqn:Hfound; [|exact I].
    pose proof (best_split_decreases _ _ Hbest Hfound). intuition.
Qed.

(** Below the configured maximum depth lie only leaves. *)
Lemma build_tree_fuel_internal_below self (d : Z) :
  max_depth self = Some d ->
  forall fuel X y depth (t : node),
    _build_tree_fuel fuel self X y depth = Some (Ok t) ->
    internal_below d depth t = true.
Proof.
  intros Hd. induction fuel as [|fuel IH]; intros X y depth t; [discriminate|].
  build_tree_cases X y; intros E; try discriminate;
    try (inversion E as [E']; apply make_leaf_is_leaf in E';
         destruct E' as (c & ->); reflexivity).
  destruct (_build_tree_fuel fuel self Xl yl (depth + 1)) as [[tl|?]|] eqn:El;
    try discriminate.
  destruct (_build_tree_fuel fuel self Xr yr (depth + 1)) as [[tr|?]|] eqn:Er;
    try discriminate.
  inversion E as [E']. apply bind_Ok in E'. destruct E' as (name & _ & E').
  inversion E'; subst. simpl.
  rewrite (IH _ _ _ _ El), (IH _ _ _ _ Er).
  apply orb_false_iff in Hstop. destruct Hstop as [Hstop _].
  apply orb_false_iff in Hstop. destruct Hstop as [Hstop _].
  unfold depth_reached in Hstop. rewrite Hd in Hstop.
  apply Z.leb_gt in Hstop. apply Z.ltb_lt in Hstop. rewrite Hstop. reflexivity.
Qed.

Lemma internal_below_height (d : Z) (t : node (label := label)) : forall k,
  internal_below d k t = true -> (k <= d)%Z -> (k + Z.of_nat (height t) <= d)%Z.
Proof.
  induction t as [c|f name th l IHl r IHr]; simpl; intros k Hb Hk; [lia|].
  apply andb_true_iff in Hb. destruct Hb as [Hb Hr].
  apply andb_true_iff in Hb. destruct Hb as [Hlt Hl].
  apply Z.ltb_lt in Hlt.
  specialize (IHl _ Hl). specialize (IHr _ Hr). lia.
Qed.

(** C6: with a configured max_depth, the tree the Tree Builder returns when
    invoked at depth 0 has internal nodes only at depths below max_depth, so
    every node at depth max_depth or more is a leaf; for a non-negative
    max_depth, no root-to-leaf path is longer than max_depth. *)
Theorem build_tree_respects_max_depth self X y (d : Z) (t : node) :
  max_depth self = Some d ->
  _build_tree self X y 0 = Ok t ->
  internal_below d 0 t = true
  /\ ((0 <= d)%Z -> (Z.of_nat (height t) <= d)%Z).
Proof.
  intros Hd E. unfold _build_tree in E.
  destruct (_build_tree_fuel (S (length y)) self X y 0) as [r|] eqn:Ef;
    [subst r | discriminate].
  assert (Hb : internal_below d 0 t = true)
    by (eapply build_tree_fuel_internal_below; eassumption).
  split; [assumption|].
  intros Hpos. apply internal_below_height in Hb; lia.
Qed.

End TreeBuilder.

(** ** Pruner *)

Section Pruner.

Context {label : Type} `{EqDec label}.

Implicit Types (nd : node (label := label)).

(** On an empty validation set the Pruner leaves a single leaf alone and
    fails on every other tree, before changing any node: the attempt at the
    first node with two leaf children looks up the majority of no labels. *)
Lemma prune_empty_validation nd :
  _prune nd [] [] = (nd, if is_leaf nd then Ok tt else Raise IndexError).
Proof.
  induction nd as [c|f name th l IHl r IHr]; simpl; [reflexivity|].
  rewrite IHl. destruct (is_leaf l) eqn:Hl; [|reflexivity].
  rewrite IHr. destruct (is_leaf r) eqn:Hr; [|reflexivity].
  simpl. reflexivity.
Qed.

(** *** The label of a collapsed node *)

Lemma veqb_refl (v : value) : veqb v v = true.
Proof.
  destruct v as [|q|t]; simpl;
    [reflexivity | apply Qeq_bool_refl | apply String.eqb_refl].
Qed.

Lemma row_eqb_refl (x : row) : row_eqb x x = true.
Proof.
  induction x as [|v x IH]; simpl; [reflexivity|].
  rewrite veqb_refl, IH. reflexivity.
Qed.

(** [X_val.index(x)] is the position of [x] when no earlier row equals it. *)
Lemma index_of_first (pre suf : list row) (x : row) :
  Forall (fun r => row_eqb r x = false) pre ->
  index_of (pre ++ x :: suf) x = Ok (length pre).
Proof.
  induction 1 as [|r pre Hr Hpre IH]; simpl.
  - rewrite row_eqb_refl. reflexivity.
  - rewrite Hr, IH. reflexivity.
Qed.

Lemma rows_distinct_app (pre suf : list row) (x : row) :
  rows_distinct (pre ++ x :: suf) = true ->
  Forall (fun r => row_eqb r x = false) pre.
Proof.
  induction pre as [|r pre IH]; simpl; intros Hd; [constructor|].
  apply andb_true_iff in Hd. destruct Hd as [Hr Hd].
  constructor; [|auto].
  rewrite forallb_forall in Hr.
  specialize (Hr x (in_elt x pre suf)). apply negb_true_iff in Hr. exact Hr.
Qed.

Lemma skipn_S_tl {A : Type} (n : nat) : forall l : list A,
  skipn (S n) l = tl (skipn n l).
Proof.
  induction n as [|n IH]; intros [|a l]; try reflexivity.
  change (skipn (S (S n)) (a :: l)) with (skipn (S n) l).
  change (skipn (S n) (a :: l)) with (skipn n l). apply IH.
Qed.

Lemma skipn_nth_error {A : Type} (n : nat) : forall (l : list A) (a : A),
  nth_error l n = Some a -> skipn n l = a :: skipn (S n) l.
Proof.
  induction n as [|n IH]; intros [|b l] a E; simpl in E; try discriminate.
  - inversion E; reflexivity.
  - change (skipn (S n) (b :: l)) with (skipn n l).
    change (skipn (S (S n)) (b :: l)) with (skipn (S n) l). auto.
Qed.

Lemma aligned_labels_nil (f : nat) (X_val : list row) :
  aligned_labels f X_val (@nil label) = [].
Proof. destruct X_val; reflexivity. Qed.

(** An iteration that does not raise skips a row that is not observed, and
    appends a label for a row that is. *)
Lemma collect_step_cases f th X_val (y_val acc : list label) x acc' :
  collect_step f th X_val y_val acc x = Ok acc' ->
  (observed f x = false /\ acc' = acc)
  \/ (observed f x = true /\ append_label X_val y_val acc x = Ok acc').
Proof.
  unfold collect_step, index, observed.
  destruct (nth_error x f) as [val|]; simpl; [|discriminate].
  destruct (is_None val); simpl.
  - intros E; inversion E; auto.
  - destruct th as [|t|t]; auto.
    destruct (le_number val t) as [[|]|e]; simpl; auto; discriminate.
Qed.

(** When no two validation rows are equal, the loop collects the labels
    aligned with the observed rows. *)
Lemma collect_loop_distinct f th X_val (y_val : list label) :
  forall (suf pre : list row) (acc acc' : list label),
    X_val = pre ++ suf ->
    rows_distinct X_val = true ->
    for_each (collect_step f th X_val y_val) suf acc = Ok acc' ->
    acc' = acc ++ aligned_labels f suf (skipn (length pre) y_val).
Proof.
  induction suf as [|x suf IH]; intros pre acc acc' HX Hd E.
  - simpl in E. inversion E. simpl. rewrite app_nil_r. reflexivity.
  - simpl in E. apply bind_Ok in E. destruct E as (acc1 & E1 & E2).
    assert (HX' : X_val = (pre ++ [x]) ++ suf)
      by (rewrite <- app_assoc; exact HX).
    specialize (IH (pre ++ [x]) acc1 acc' HX' Hd E2).
    rewrite length_app, Nat.add_1_r in IH. subst acc'.
    apply collect_step_cases in E1.
    destruct E1 as [(Hobs & ->) | (Hobs & E1)].
    + f_equal. rewrite skipn_S_tl.
      destruct (skipn (length pre) y_val) as [|l ys]; simpl;
        [apply aligned_labels_nil | rewrite Hobs; reflexivity].
    + unfold append_label in E1.
      assert (Hidx : index_of X_val x = Ok (length pre)).
      { rewrite HX. apply index_of_first.
        apply rows_distinct_app with (suf := suf). rewrite <- HX. exact Hd. }
      rewrite Hidx in E1. simpl in E1.
      apply bind_Ok in E1. destruct E1 as (l & El & E1). inversion E1; subst acc1.
      unfold index in El.
      destruct (nth_error y_val (length pre)) as [l'|] eqn:Hnth; inversion El; subst l'.
      rewrite (skipn_nth_error _ _ Hnth). cbn [aligned_labels]. rewrite Hobs.
      rewrite <- app_assoc. reflexivity.
Qed.

(** When no two validation rows are equal, a node that collapses takes the
    label the specification gives it. *)
Lemma majority_class_distinct_rows f th X_val (y_val : list label) (c : label) :
  rows_distinct X_val = true ->
  majority_class f th X_val y_val = Ok c ->
  spec_majority_class f X_val y_val = Ok c.
Proof.
  unfold majority_class, spec_majority_class. intros Hd E.
  apply bind_Ok in E. destruct E as (combined & Ec & E).
  apply collect_loop_distinct with (pre := []) in Ec; [|reflexivity|assumption].
  simpl in Ec. subst combined.
  destruct (aligned_labels f X_val y_val); exact E.
Qed.

(** The decision at one node never increases the validation error of the
    predictions rooted at that node. *)
Lemma try_prune_node_error nd f th X_val (y_val : list label) nd' :
  try_prune nd f th X_val y_val = Ok nd' ->
  exists e e',
    prediction_error nd X_val y_val = Ok e
    /\ prediction_error nd' X_val y_val = Ok e'
    /\ e' <= e.
Proof.
  unfold try_prune. intros E.
  apply bind_Ok in E. destruct E as (e & Ee & E).
  apply bind_Ok in E. destruct E as (c & _ & E).
  apply bind_Ok in E. destruct E as (e' & Ee' & E).
  destruct (e <? e') eqn:Hcmp; inversion E; subst.
  - exists e, e. auto.
  - apply Nat.ltb_ge in Hcmp. exists e, e'. auto.
Qed.

End Pruner.

(** ** The public operations *)

Section PublicInterface.

Context {label : Type} `{EqDec label} `{SetOrder}.

Implicit Types (self : classifier (label := label)) (X : list row) (y : list label).







Lemma predict_without_tree self X :
  tree self = None -> X <> [] -> predict self X = Raise TypeError.
Proof.
  intros Ht Hne. unfold predict. rewrite Ht.
  destruct X as [|x X]; [congruence | reflexivity].
Qed.

(** A call of [fit] that fails during tree construction assigns no tree. *)
Lemma fit_failed_construction self X y names X_val y_val e :
  _build_tree (set_feature_names self names) X y 0 = Raise e ->
  fit self X y names X_val y_val = (set_feature_names self names, Raise e).
Proof. intros E. unfold fit. rewrite E. reflexivity. Qed.

(** C10 (amended): on an instance whose tree is still the [None] set at
    construction, [predict] raises [TypeError] for every non-empty sample
    list and returns the empty list for the empty sample list; the tree is
    [None] after construction and stays [None] through a call of [fit] that
    fails during tree construction. *)
Theorem predict_needs_tree_for_nonempty_input self X :
  tree self = None ->
  (X <> [] -> predict self X = Raise TypeError)
  /\ predict self [] = Ok []
  /\ (forall md mss, tree (__init__ (label := label) md mss) = None)
  /\ (forall X' y names X_val y_val e,
        _build_tree (set_feature_names self names) X' y 0 = Raise e ->
        tree (fst (fit self X' y names X_val y_val)) = None).
Proof.
  intros Ht. repeat split.
  - apply predict_without_tree. assumption.
  - intros X' y names X_val y_val e E.
    erewrite fit_failed_construction by exact E. simpl. assumption.
Qed.

End PublicInterface.

(** ** Behaviour on concrete inputs *)

Module Concrete.

Import Data.

Open Scope string_scope.

(** The tree fitted to [X_train], [y_train]. *)
Lemma tree_of_train (O : SetOrder) :
  _build_tree clf X_train y_train 0
  = Ok (Node 0 None (VNum (1 # 2)) (Leaf "A")
          (Node 1 None (VNum (1 # 2)) (Leaf "B") (Leaf "C"))).
Proof. vm_compute. reflexivity. Qed.

(** The tree fitted to [X_two], [y_two]. *)
Lemma tree_of_two (O : SetOrder) :
  _build_tree clf X_two y_two 0
  = Ok (Node 0 None (VNum (1 # 2)) (Leaf "A") (Leaf "B")).
Proof. vm_compute. reflexivity. Qed.

(** C1: pruning can increase the validation error of the whole tree.  The
    tree fitted to [X_train], [y_train] predicts the same four samples, taken
    as validation set, without error; pruning it with that validation set
    ends with the single leaf "A", which mispredicts two of the four. *)
Theorem pruning_increases_validation_error (O : SetOrder) :
  exists t_before t_after : node,
    _build_tree clf X_train y_train 0 = Ok t_before
    /\ fit clf X_train y_train None (Some X_train) (Some y_train)
       = (set_tree clf t_after, Ok tt)
    /\ prediction_error t_before X_train y_train = Ok 0
    /\ prediction_error t_after X_train y_train = Ok 2.
Proof.
  exists (Node 0 None (VNum (1 # 2)) (Leaf "A")
            (Node 1 None (VNum (1 # 2)) (Leaf "B") (Leaf "C"))), (Leaf "A").
  repeat split; vm_compute; reflexivity.
Qed.

(** C2: in the column of [X_mixed], which holds the number 1 and the token
    "a", the number 1 is a candidate threshold whatever the iteration order of
    the set, and partitioning at it raises [TypeError] instead of putting the
    row with "a" on the right; the split search, and [fit], fail with it. *)
Theorem mixed_column_numeric_threshold_raises (O : SetOrder) :
  column_values X_mixed 0 = Ok [num 1; VStr "a"]
  /\ forallb is_number (distinct [num 1; VStr "a"]) = false
  /\ In (num 1) (thresholds_of [num 1; VStr "a"])
  /\ _split_dataset X_mixed y_mixed 0 (num 1) = Raise TypeError
  /\ _best_split X_mixed y_mixed = Raise TypeError
  /\ fit clf X_mixed y_mixed None None None = (clf, Raise TypeError).
Proof.
  assert (Hperm : Permutation [num 1; VStr "a"] (set_iter [num 1; VStr "a"]))
    by (symmetry; apply set_iter_perm).
  assert (Hbest : _best_split X_mixed y_mixed = Raise TypeError).
  { unfold _best_split, try_feature, thresholds_of. simpl.
    apply Permutation_length_2_inv in Hperm.
    destruct Hperm as [-> | ->]; vm_compute; reflexivity. }
  repeat split; try reflexivity; try exact Hbest.
  - unfold thresholds_of. simpl.
    apply (Permutation_in _ Hperm). left. reflexivity.
  - unfold fit. erewrite build_tree_split_fails; [reflexivity | reflexivity | exact Hbest].
Qed.


(** C4: pruning the tree fitted to [X_two], [y_two], an internal node with
    two leaf children, with an empty validation set ends [fit] with
    [IndexError]. *)
Theorem prune_empty_validation_raises (O : SetOrder) :
  exists t : node,
    _build_tree clf X_two y_two 0 = Ok t
    /\ is_leaf t = false
    /\ _prune t [] [] = (t, Raise IndexError)
    /\ fit clf X_two y_two None (Some []) (Some []) = (set_tree clf t, Raise IndexError).
Proof.
  exists (Node 0 None (VNum (1 # 2)) (Leaf "A") (Leaf "B")).
  repeat split; vm_compute; reflexivity.
Qed.

(** C5: with the validation rows [X_dup] (three equal rows) labelled
    [y_dup] = A, B, B, the node fitted to [X_two], [y_two] collapses to "A":
    every row contributes the label of the first row equal to it.  The
    majority of the labels aligned with the rows is "B". *)
Theorem collapse_label_ignores_duplicate_rows :
  majority_class 0 (VNum (1 # 2)) X_dup y_dup = Ok "A"
  /\ aligned_labels 0 X_dup y_dup = ["A"; "B"; "B"]
  /\ spec_majority_class 0 X_dup y_dup = Ok "B"
  /\ _prune (Node 0 None (VNum (1 # 2)) (Leaf "A") (Leaf "B")) X_dup y_dup
     = (Leaf "A", Ok tt)
  /\ fit clf X_two y_two None (Some X_dup) (Some y_dup)
     = (set_tree clf (Leaf "A"), Ok tt).
Proof. repeat split; vm_compute; reflexivity. Qed.

(** C10 (counterexample): on a freshly constructed instance, [predict]
    returns the empty list for the empty sample list.  Moreover, an instance
    whose only call of [fit] failed in the Pruner holds the unpruned tree, and
    [predict] returns labels on it. *)
Lemma predict_unfitted_empty_input :
  (tree clf = None /\ predict clf [] = Ok [])
  /\ (snd (fit clf X_two y_two None (Some []) (Some [])) = Raise IndexError
      /\ predict (fst (fit clf X_two y_two None (Some []) (Some []))) X_two
         = Ok ["A"; "B"]).
Proof. repeat split; vm_compute; reflexivity. Qed.

(** *** Instances of the general theorems *)

Lemma gini_impurity_witness :
  y_train <> []
  /\ ((_gini y_train == gini_spec y_train)%Q
      /\ (length (nodup eq_dec y_train) = 1 -> (_gini y_train == 0)%Q)
      /\ (0 <= _gini y_train)%Q
      /\ (_gini y_train
          <= 1 - 1 / inject_Z (Z.of_nat (length (nodup eq_dec y_train))))%Q).
Proof.
  split; [discriminate|].
  apply (@gini_impurity_formula_and_bounds string _ y_train). discriminate.
Defined.

Lemma predict_missing_value_witness :
  let nd := Node 0 None (VNum (1 # 2)) (Leaf "A") (Leaf "B") in
  nth_error sample_missing 0 = Some VNone
  /\ _predict_sample nd sample_missing = Ok (more_frequent "A" "B")
  /\ ("A" <> "B" -> _predict_sample nd sample_missing = Ok "A")
  /\ ("A" = "B" -> _predict_sample nd sample_missing = Ok "B").
Proof.
  split; [reflexivity|].
  apply (@predict_missing_value_votes string _ 0 None (VNum (1 # 2))
           (Leaf "A") (Leaf "B") sample_missing "A" "B"); reflexivity.
Defined.

Lemma build_tree_max_depth_witness :
  let self := __init__ (label := string) (Some 1%Z) 2 in
  let t := Node 0 None (VNum (1 # 2)) (Leaf "A") (Leaf "B") in
  max_depth self = Some 1%Z
  /\ _build_tree self X_train y_train 0 = Ok t
  /\ internal_below 1 0 t = true
  /\ ((0 <= 1)%Z -> (Z.of_nat (height t) <= 1)%Z).
Proof.
  intros self t.
  assert (E : _build_tree self X_train y_train 0 = Ok t) by (vm_compute; reflexivity).
  split; [reflexivity|]. split; [exact E|].
  apply (@build_tree_respects_max_depth string _ _ self X_train y_train 1%Z t);
    [reflexivity | exact E].
Defined.

Lemma build_tree_terminates_witness :
  length y_train < 5
  /\ _build_tree_fuel 5 clf X_train y_train 0
     = Some (_build_tree clf X_train y_train 0).
Proof.
  assert (Hlen : length y_train < 5) by (simpl; lia).
  split; [exact Hlen|].
  apply (proj1 (@build_tree_terminates string _ _ clf X_train y_train 0%Z 5 Hlen)).
Defined.


Lemma predict_needs_tree_witness :
  tree clf = None /\ predict clf [[num 1]] = Raise TypeError.
Proof.
  assert (Ht : tree clf = None) by reflexivity.
  split; [exact Ht|].
  apply (proj1 (@predict_needs_tree_for_nonempty_input string _ _ clf [[num 1]] Ht)).
  discriminate.
Defined.

End Concrete.

(** * Further properties of the code *)

(** ** Majority vote and impurity *)

Section MajorityFacts.

Context {label : Type} `{EqDec label}.

Implicit Types (y : list label) (c : counter (label := label)).

(** The running maximum ends on the start item or an item of the list, and
    no item has a larger count. *)
Lemma max_count_spec c : forall best,
  (max_count best c = best \/ In (max_count best c) c)
  /\ snd best <= snd (max_count best c)
  /\ forall p, In p c -> snd p <= snd (max_count best c).
Proof.
  induction c as [|[k n] c IH]; intros best; simpl.
  - repeat split; auto. intros p [].
  - destruct (snd best <? n) eqn:Hcmp.
    + apply Nat.ltb_lt in Hcmp.
      destruct (IH (k, n)) as (Hin & Hle & Hall). simpl in Hle.
      repeat split.
      * destruct Hin as [-> | Hin]; auto.
      * lia.
      * intros p [<- | Hp]; [exact Hle | auto].
    + apply Nat.ltb_ge in Hcmp.
      destruct (IH best) as (Hin & Hle & Hall).
      repeat split.
      * destruct Hin as [-> | Hin]; auto.
      * exact Hle.
      * intros p [<- | Hp]; [simpl; lia | auto].
Qed.

Lemma Counter_has_entry y k : In k y -> In (k, count_occ eq_dec y k) (Counter y).
Proof.
  intros Hin. apply Counter_keys in Hin. apply in_map_iff in Hin.
  destruct Hin as ([k' n] & Hk & Hin). simpl in Hk. subst k'.
  rewrite <- (Counter_entry _ _ _ Hin). exact Hin.
Qed.

(** The vote returns a label of the vector that occurs at least as often as
    every other label. *)
Lemma majority_is_mode y k :
  majority y = Ok k ->
  In k y /\ forall l : label, count_occ eq_dec y l <= count_occ eq_dec y k.
Proof.
  unfold majority, most_common1. intros E.
  destruct (Counter y) as [|item c] eqn:EC; [discriminate|].
  simpl in E. inversion E as [Ek]. clear E.
  destruct (max_count_spec c item) as (Hin & Hle & Hall).
  set (r := max_count item c) in *.
  assert (Hr : In r (Counter y)).
  { rewrite EC. destruct Hin as [-> | Hin]; [left; reflexivity | right; exact Hin]. }
  assert (Hmax : forall p, In p (Counter y) -> snd p <= snd r).
  { rewrite EC. intros p [<- | Hp]; auto. }
  destruct r as [k' n]. simpl in *. subst k'.
  pose proof (Counter_entry _ _ _ Hr) as Hn.
  split.
  - apply Counter_keys. apply in_map_iff. exists (k, n). auto.
  - intros l. destruct (in_dec eq_dec l y) as [Hc | Hc].
    + apply Counter_has_entry in Hc. apply Hmax in Hc. simpl in Hc. lia.
    + apply (count_occ_not_In eq_dec) in Hc. lia.
Qed.



(** *** First-encountered tie-breaking *)

(** The running maximum ends on the first item of maximal count: every item
    before it has a strictly smaller count. *)
Lemma max_count_first c : forall best,
  exists l1 l2,
    best :: c = l1 ++ max_count best c :: l2
    /\ forall p, In p l1 -> snd p < snd (max_count best c).
Proof.
  induction c as [|[k n] c IH]; intros best; simpl.
  - exists [], []. split; [reflexivity | intros p []].
  - destruct (snd best <? n) eqn:Hcmp.
    + apply Nat.ltb_lt in Hcmp.
      destruct (IH (k, n)) as (l1 & l2 & E & Hlt).
      destruct (max_count_spec c (k, n)) as (_ & Hle & _). simpl in Hle.
      exists (best :: l1), l2. split.
      * simpl. rewrite E. reflexivity.
      * intros p [<- | Hp]; [lia | auto].
    + apply Nat.ltb_ge in Hcmp.
      destruct (IH best) as (l1 & l2 & E & Hlt).
      destruct l1 as [|b l1]; simpl in E; injection E as Eb Ec.
      * exists [], ((k, n) :: l2). split; [simpl; congruence | intros p []].
      * subst b. exists (best :: (k, n) :: l1), l2. split.
        { simpl. do 2 f_equal. exact Ec. }
        assert (Hb : snd best < snd (max_count best c)) by (apply Hlt; left; reflexivity).
        intros p [<- | [<- | Hp]]; [exact Hb | simpl; lia | apply Hlt; right; exact Hp].
Qed.

Lemma keys_add_extends c x :
  exists ext, map fst (counter_add c x) = map fst c ++ ext.
Proof.
  induction c as [|[k n] c IH]; simpl.
  - exists [x]. reflexivity.
  - destruct (eq_dec k x); simpl.
    + exists []. rewrite app_nil_r. reflexivity.
    + destruct IH as (ext & ->). exists ext. reflexivity.
Qed.

Lemma fold_keys_extends y : forall c,
  exists ext, map fst (fold_left counter_add y c) = map fst c ++ ext.
Proof.
  induction y as [|x y IH]; intros c; simpl.
  - exists []. rewrite app_nil_r. reflexivity.
  - destruct (IH (counter_add c x)) as (ext & ->).
    destruct (keys_add_extends c x) as (ext' & ->).
    exists (ext' ++ ext). rewrite app_assoc. reflexivity.
Qed.

(** In a list without repetition, an element determines where the list is
    cut. *)
Lemma NoDup_cut {A : Type} (x : A) : forall a a' b b' : list A,
  NoDup (a ++ x :: b) -> a ++ x :: b = a' ++ x :: b' -> a = a'.
Proof.
  induction a as [|u a IH]; intros a' b b' Hnd E.
  - destruct a' as [|u' a']; [reflexivity|].
    simpl in E. inversion E; subst. inversion Hnd as [|? ? Hnotin _]; subst.
    exfalso. apply Hnotin. apply in_elt.
  - destruct a' as [|u' a']; simpl in E; inversion E; subst.
    + inversion Hnd as [|? ? Hnotin _]; subst.
      exfalso. apply Hnotin. apply in_elt.
    + f_equal. inversion Hnd; subst. eapply IH; eassumption.
Qed.

(** The keys of a counter are in the order in which the labels are first
    met: a key that stands before another was met before it. *)
Lemma fold_keys_order y (k l : label) : forall c ks1 ks2,
  NoDup (map fst c) ->
  map fst (fold_left counter_add y c) = ks1 ++ k :: ks2 ->
  In l ks2 -> ~ In k (map fst c) -> ~ In l (map fst c) ->
  exists y1 y2, y = y1 ++ k :: y2 /\ ~ In k y1 /\ ~ In l y1.
Proof.
  induction y as [|x y IH]; intros c ks1 ks2 Hnd E Hl Hk0 Hl0; simpl in E.
  - exfalso. apply Hk0. rewrite E. apply in_elt.
  - destruct (eq_dec x k) as [-> | Hxk].
    { exists [], y. split; [reflexivity | split; intros []]. }
    destruct (eq_dec x l) as [-> | Hxl].
    + exfalso.
      destruct (fold_keys_extends y (counter_add c l)) as (ext & Eext).
      assert (Ekeys : map fst (counter_add c l) = map fst c ++ [l]).
      { clear -Hl0. induction c as [|[k' n] c IHc]; simpl; [reflexivity|].
        destruct (eq_dec k' l) as [-> | Hne]; simpl.
        - exfalso. apply Hl0. left. reflexivity.
        - rewrite IHc; [reflexivity|]. intros Hin. apply Hl0. right. exact Hin. }
      rewrite Ekeys, <- app_assoc in Eext. simpl in Eext.
      apply in_split in Hl. destruct Hl as (m1 & m2 & ->).
      assert (Hnd' : NoDup (map fst (fold_left counter_add y (counter_add c l))))
        by (apply fold_keys_NoDup, keys_add_NoDup; exact Hnd).
      rewrite Eext in E.
      assert (Ecut : map fst c = ks1 ++ k :: m1).
      { apply NoDup_cut with (x := l) (b := ext) (b' := m2).
        - rewrite <- Eext. exact Hnd'.
        - rewrite E, <- app_assoc. reflexivity. }
      apply Hk0. rewrite Ecut. apply in_elt.
    + destruct (IH (counter_add c x) ks1 ks2) as (y1 & y2 & -> & Hk1 & Hl1); auto.
      * apply keys_add_NoDup. exact Hnd.
      * rewrite keys_add. intros [Hin | ->]; auto.
      * rewrite keys_add. intros [Hin | ->]; auto.
      * exists (x :: y1), y2. split; [reflexivity|].
        split; intros [-> | Hin]; auto.
Qed.

(** Among the labels of maximal frequency, the vote returns the one that is
    met first in the vector. *)
Lemma majority_first_of_ties y (k l : label) :
  majority y = Ok k -> l <> k ->
  count_occ eq_dec y l = count_occ eq_dec y k ->
  exists y1 y2, y = y1 ++ k :: y2 /\ ~ In k y1 /\ ~ In l y1.
Proof.
  intros E Hne Htie.
  destruct (majority_is_mode _ E) as (Hk & _).
  unfold majority, most_common1 in E.
  destruct (Counter y) as [|item c] eqn:EC; [discriminate|].
  simpl in E. inversion E as [Ek]. clear E.
  destruct (max_count_first c item) as (l1 & l2 & Esplit & Hlt).
  destruct (max_count item c) as [k' n] eqn:Er. simpl in Ek. subst k'.
  assert (Hr : In (k, n) (Counter y)) by (rewrite EC, Esplit; apply in_elt).
  pose proof (Counter_entry _ _ _ Hr) as Hn.
  assert (Hly : In l y).
  { apply (count_occ_In eq_dec). rewrite Htie.
    apply (count_occ_In eq_dec) in Hk. exact Hk. }
  pose proof (Counter_has_entry _ _ Hly) as Hentry.
  rewrite Htie, <- Hn, EC, Esplit in Hentry.
  apply in_app_or in Hentry. destruct Hentry as [Hin | [Heq | Hin]].
  - apply Hlt in Hin. simpl in Hin. lia.
  - inversion Heq. congruence.
  - apply fold_keys_order with (c := []) (ks1 := map fst l1) (ks2 := map fst l2).
    + constructor.
    + fold (Counter y). rewrite EC, Esplit, map_app. reflexivity.
    + apply in_map_iff. exists (l, n). auto.
    + intros [].
    + intros [].
Qed.

End MajorityFacts.

(** ** Partitioning *)

Section Partitioning.

Context {label : Type} `{EqDec label}.

Implicit Types (X : list row) (y : list label) (s : splits (label := label)).

(** A loop whose iterations succeed exactly on the elements satisfying [P],
    whatever the state, succeeds exactly on the lists of such elements. *)
Lemma for_each_succeeds_iff {S A : Type} (body : S -> A -> result S) (P : A -> Prop) :
  (forall (st : S) a, (exists st', body st a = Ok st') <-> P a) ->
  forall (l : list A) (st : S),
    (exists st', for_each body l st = Ok st') <-> Forall P l.
Proof.
  intros Hbody. induction l as [|a l IH]; intros st; simpl.
  - split; [constructor | eauto].
  - split.
    + intros (st' & E). apply bind_Ok in E. destruct E as (st1 & E1 & E2).
      constructor; [apply (Hbody st a); eauto | apply (IH st1); eauto].
    + intros HF. inversion HF as [|? ? Ha Hl]; subst.
      apply (Hbody st a) in Ha. destruct Ha as (st1 & E1). rewrite E1. simpl.
      apply IH. exact Hl.
Qed.

Lemma splits_app_nil s : splits_app s (([], []), ([], [])) = s.
Proof.
  destruct s as [[Xl yl] [Xr yr]]. unfold splits_app. simpl.
  rewrite !app_nil_r. reflexivity.
Qed.

Lemma splits_app_left s xi (yi : label) t :
  splits_app (append_left s xi yi) t
  = splits_app s ((xi :: fst (fst t), yi :: snd (fst t)), snd t).
Proof.
  destruct s as [[Xl yl] [Xr yr]], t as [[Tl tl] [Tr tr]].
  unfold splits_app. simpl. rewrite <- !app_assoc. reflexivity.
Qed.

Lemma splits_app_right s xi (yi : label) t :
  splits_app (append_right s xi yi) t
  = splits_app s (fst t, (xi :: fst (snd t), yi :: snd (snd t))).
Proof.
  destruct s as [[Xl yl] [Xr yr]], t as [[Tl tl] [Tr tr]].
  unfold splits_app. simpl. rewrite <- !app_assoc. reflexivity.
Qed.

(** The loop of [_split_dataset] at a numeric threshold appends the two
    filters of the remaining rows. *)
Lemma split_loop_numeric f (t : Q) (l : list (row * label)) : forall s s',
  for_each (split_step f (VNum t)) l s = Ok s' ->
  s' = splits_app s (threshold_split f t l).
Proof.
  induction l as [|[xi yi] l IH]; intros s s' E; simpl in E.
  - inversion E. symmetry. apply splits_app_nil.
  - apply bind_Ok in E. destruct E as (s1 & E1 & E2).
    apply IH in E2. subst s'.
    unfold split_step, index in E1.
    unfold threshold_split. cbn [filter fst].
    destruct (nth_error xi f) as [val|] eqn:Hval; simpl in E1; [|discriminate].
    assert (Hobs : observed f xi = negb (is_None val))
      by (unfold observed; rewrite Hval; reflexivity).
    destruct val as [|q|str]; simpl in E1; try discriminate.
    + inversion E1. subst s1. rewrite Hobs. reflexivity.
    + assert (Hbelow : below_at f t xi = Qle_bool q t)
        by (unfold below_at; rewrite Hval; reflexivity).
      rewrite Hobs, Hbelow. simpl.
      destruct (Qle_bool q t); inversion E1; subst s1; simpl;
        [rewrite splits_app_left | rewrite splits_app_right]; reflexivity.
Qed.

Lemma split_step_numeric_succeeds f (t : Q) s (xy : row * label) :
  (exists s', split_step f (VNum t) s xy = Ok s') <-> numeric_at f (fst xy) = true.
Proof.
  destruct xy as [xi yi]. unfold split_step, index, numeric_at. simpl.
  destruct (nth_error xi f) as [[|q|str]|]; simpl.
  - split; eauto.
  - split; [reflexivity|]. intros _. destruct (Qle_bool q t); eauto.
  - split; [intros (s' & E); discriminate | discriminate].
  - split; [intros (s' & E); discriminate | discriminate].
Qed.

Lemma split_step_categorical_succeeds f th s (xy : row * label) :
  is_number th = false ->
  (exists s', split_step f th s xy = Ok s') <-> f < length (fst xy).
Proof.
  intros Hth. destruct xy as [xi yi]. unfold split_step, index. simpl.
  rewrite <- nth_error_Some.
  destruct (nth_error xi f) as [val|]; simpl.
  - split; [congruence|]. intros _.
    destruct (is_None val); [eauto|].
    destruct th as [|q|str]; [|discriminate|]; destruct (veqb val _); eauto.
  - split; [intros (s' & E); discriminate | congruence].
Qed.

(** An iteration that does not raise keeps a row that is not observed out of
    the split, and appends an observed row to one side. *)
Lemma split_step_observed f th s xi (yi : label) s' :
  split_step f th s (xi, yi) = Ok s' ->
  (observed f xi = false /\ s' = s)
  \/ (observed f xi = true
      /\ (s' = append_left s xi yi \/ s' = append_right s xi yi)).
Proof.
  unfold split_step, index, observed.
  destruct (nth_error xi f) as [val|]; simpl; [|discriminate].
  destruct (is_None val) eqn:Hnone; simpl.
  - intros E; inversion E; auto.
  - destruct th as [|t|t]; simpl.
    + destruct (veqb val VNone); intros E; inversion E; auto.
    + destruct (le_number val t) as [[|]|e]; simpl; intros E; inversion E; auto.
    + destruct (veqb val (VStr t)); intros E; inversion E; auto.
Qed.

Lemma split_loop_conserves f th (l : list (row * label)) : forall s s',
  for_each (split_step f th) l s = Ok s' ->
  split_size s'
  = split_size s + length (filter (fun xy => observed f (fst xy)) l).
Proof.
  induction l as [|[xi yi] l IH]; intros s s' E; simpl in E.
  - inversion E. simpl. lia.
  - apply bind_Ok in E. destruct E as (s1 & E1 & E2).
    apply IH in E2. rewrite E2. apply split_step_observed in E1.
    cbn [filter fst]. destruct s as [[Xl yl] [Xr yr]].
    destruct E1 as [(Hobs & ->) | (Hobs & [-> | ->])]; rewrite Hobs;
      unfold split_size; simpl; rewrite ?length_app; simpl; lia.
Qed.

(** X3: at a numeric threshold, [_split_dataset] succeeds exactly when every
    paired row holds [None] or a number in the column, and it then returns the
    rows at or below the threshold on the left and the rows above it on the
    right, each side in the order of the table, rows with [None] left out. *)
Theorem split_dataset_numeric_threshold X y f (t : Q) :
  ((exists s, _split_dataset X y f (VNum t) = Ok s)
   <-> Forall (fun xy => numeric_at f (fst xy) = true) (combine X y))
  /\ forall s, _split_dataset X y f (VNum t) = Ok s ->
              s = threshold_split f t (combine X y).
Proof.
  split.
  - unfold _split_dataset. apply for_each_succeeds_iff.
    intros st a. apply split_step_numeric_succeeds.
  - intros s E. unfold _split_dataset in E. apply split_loop_numeric in E.
    rewrite E. destruct (threshold_split f t (combine X y)) as [[Xl yl] [Xr yr]].
    reflexivity.
Qed.

(** X4: at a threshold that is not a number, [_split_dataset] succeeds
    exactly when every paired row is long enough to hold the column, and it
    then returns the observed rows equal to the threshold on the left and the
    other observed rows on the right. *)
Theorem split_dataset_token_threshold X y f th :
  is_number th = false ->
  ((exists s, _split_dataset X y f th = Ok s)
   <-> Forall (fun xy => f < length (fst xy)) (combine X y))
  /\ forall s, _split_dataset X y f th = Ok s ->
              s = equality_split f th (combine X y).
Proof.
  intros Hth.
  assert (Hiff : (exists s, _split_dataset X y f th = Ok s)
                 <-> Forall (fun xy : row * label => f < length (fst xy)) (combine X y)).
  { unfold _split_dataset. apply for_each_succeeds_iff.
    intros st a. apply split_step_categorical_succeeds. exact Hth. }
  split; [exact Hiff|].
  intros s E.
  assert (Hrows : Forall (fun xy : row * label => f < length (fst xy)) (combine X y))
    by (apply Hiff; eauto).
  unfold _split_dataset in E.
  rewrite split_loop_equality in E by assumption.
  inversion E. destruct (equality_split f th (combine X y)) as [[Xl yl] [Xr yr]].
  reflexivity.
Qed.

(** X5: a split that is returned holds every observed paired row exactly
    once: the sizes of its two parts add up to the number of paired rows whose
    value in the column is present and not [None]; rows beyond the shorter of
    the table and the label vector take no part. *)
Theorem split_dataset_conserves_observed_rows X y f th s :
  _split_dataset X y f th = Ok s ->
  length (fst (fst s)) = length (snd (fst s))
  /\ length (fst (snd s)) = length (snd (snd s))
  /\ length (snd (fst s)) + length (snd (snd s))
     = length (filter (fun xy => observed f (fst xy)) (combine X y)).
Proof.
  intros E.
  destruct (split_dataset_facts _ _ _ _ E) as ((Hl & Hr & _) & _).
  unfold _split_dataset in E. apply split_loop_conserves in E.
  unfold split_size in E. simpl in E. auto.
Qed.

End Partitioning.

(** ** What the Split Finder returns *)

Section BestSplit.

Context {label : Type} `{EqDec label} `{SetOrder}.

Implicit Types (X : list row) (y : list label) (b : best (label := label)).

Lemma Qgt_bool_true (a c : Q) : Qgt_bool a c = true -> (c < a)%Q.
Proof.
  unfold Qgt_bool. intros E. apply negb_true_iff in E.
  apply Qnot_le_lt. rewrite <- Qle_bool_iff. congruence.
Qed.

Lemma Qgt_bool_false (a c : Q) : Qgt_bool a c = false -> (a <= c)%Q.
Proof.
  unfold Qgt_bool. intros E. apply negb_false_iff in E.
  apply Qle_bool_iff. exact E.
Qed.

Lemma best_sound_nonneg X y b : best_sound X y b -> (0 <= best_gain b)%Q.
Proof.
  unfold best_sound. destruct (best_found b) as [[[f th] s]|].
  - intros (Hpos & _). apply Qlt_le_weak. exact Hpos.
  - intros ->. apply Qle_refl.
Qed.

(** The outcome of one candidate: the state is kept, or replaced by the
    candidate with its gain, which is then larger than the gain before. *)
Lemma try_threshold_cases X y f b th b' :
  try_threshold X y (_gini y) f b th = Ok b' ->
  exists s,
    _split_dataset X y f th = Ok s
    /\ ((b' = b /\ (both_nonempty s = true -> (gain_of y s <= best_gain b)%Q))
        \/ (both_nonempty s = true
            /\ (best_gain b < gain_of y s)%Q
            /\ b' = {| best_gain := gain_of y s; best_found := Some (f, th, s) |})).
Proof.
  unfold try_threshold. intros E.
  apply bind_Ok in E. destruct E as (s & Es & E).
  exists s. split; [exact Es|].
  destruct s as [[Xl yl] [Xr yr]]. unfold both_nonempty, gain_of. simpl.
  destruct ((length yl =? 0) || (length yr =? 0)).
  - inversion E. left. split; [reflexivity | discriminate].
  - match type of E with
    | (if Qgt_bool ?g _ then _ else _) = _ => destruct (Qgt_bool g (best_gain b)) eqn:Hcmp
    end; inversion E; subst b'.
    + right. repeat split. apply Qgt_bool_true. exact Hcmp.
    + left. split; [reflexivity|]. intros _. apply Qgt_bool_false. exact Hcmp.
Qed.

Lemma try_threshold_sound X y f x0 values b th b' :
  nth_error X 0 = Some x0 -> f < length x0 ->
  column_values X f = Ok values -> In th (thresholds_of values) ->
  best_sound X y b ->
  try_threshold X y (_gini y) f b th = Ok b' -> best_sound X y b'.
Proof.
  intros Hx0 Hf Hvals Hth Hb E.
  apply try_threshold_cases in E.
  destruct E as (s & Es & [(-> & _) | (Hne & Hlt & ->)]); [exact Hb|].
  unfold best_sound. simpl.
  split; [eapply Qle_lt_trans; [eapply best_sound_nonneg; exact Hb | exact Hlt]|].
  split; [apply Qeq_refl|].
  split; [exact Es|]. split; [exact Hne|].
  exists x0, values. auto.
Qed.

Lemma best_split_sound X y b : _best_split X y = Ok b -> best_sound X y b.
Proof.
  unfold _best_split. intros E.
  apply bind_Ok in E. destruct E as (x0 & Ex0 & E).
  unfold index in Ex0.
  destruct (nth_error X 0) as [x0'|] eqn:Hx0; inversion Ex0; subst x0'.
  apply (for_each_invariant (try_feature X y (_gini y)) (best_sound X y)
           (seq 0 (length x0)) {| best_gain := 0; best_found := None |}); auto.
  - intros b1 f b2 Hf Hb1 E1. apply in_seq in Hf.
    unfold try_feature in E1. apply bind_Ok in E1.
    destruct E1 as (values & Hvals & E1).
    apply (for_each_invariant (try_threshold X y (_gini y) f) (best_sound X y)
             (thresholds_of values) b1); auto.
    intros b3 th b4 Hth Hb3 E3.
    eapply try_threshold_sound with (values := values) (b := b3);
      eauto; lia.
  - reflexivity.
Qed.

(** X8: what the Split Finder returns is well formed, whatever the gains
    are.  The recorded gain is 0 exactly when no split is returned; a
    returned split records a feature index within the first row, and its two
    parts, both non-empty, are the parts [_split_dataset] gives for the
    node's data at the recorded feature and threshold. *)
Theorem best_split_is_well_formed X y b :
  _best_split X y = Ok b ->
  (Qeq_bool (best_gain b) 0 = true <-> best_found b = None)
  /\ forall f th s,
       best_found b = Some (f, th, s) ->
       _split_dataset X y f th = Ok s
       /\ both_nonempty s = true
       /\ exists x0, nth_error X 0 = Some x0 /\ f < length x0.
Proof.
  intros E. apply best_split_sound in E.
  unfold best_sound in E. destruct (best_found b) as [[[f th] s]|].
  - destruct E as (Hpos & _ & Hs & Hne & x0 & values & Hx0 & Hf & _).
    split.
    + split; [|discriminate].
      intros Hz. apply Qeq_bool_iff in Hz. rewrite Hz in Hpos.
      exfalso. apply (Qlt_irrefl 0). exact Hpos.
    + intros f' th' s' Efound. inversion Efound; subst.
      split; [exact Hs|]. split; [exact Hne|]. exists x0. auto.
  - rewrite E. split; [split; reflexivity|]. discriminate.
Qed.

End BestSplit.

(** ** What the Tree Builder returns *)

Unset Implicit Arguments.

Section TreeBuilderFacts.

Context {label : Type} `{EqDec label} `{SetOrder}.

Implicit Types (self : classifier (label := label)) (X : list row) (y : list label).

(** Case analysis that follows the branches of [_build_tree_fuel]. *)
Ltac builder_cases X y :=
  simpl;
  match goal with
  | |- context [if ?c then Some (make_leaf y) else _] => destruct c eqn:Hstop
  end;
  [|destruct (_best_split X y) as [b|e] eqn:Hbest;
    [destruct (Qeq_bool (best_gain b) 0) eqn:Hgain;
     [|destruct (best_found b) as [[[f th] [[Xl yl] [Xr yr]]]|] eqn:Hfound]|]].

(** A loop whose every iteration succeeds succeeds. *)
Lemma for_each_total {S A : Type} (body : S -> A -> result S) :
  forall l : list A,
    (forall st a, In a l -> exists st', body st a = Ok st') ->
    forall st, exists st', for_each body l st = Ok st'.
Proof.
  induction l as [|a l IH]; intros Hbody st; simpl; [eauto|].
  destruct (Hbody st a (or_introl eq_refl)) as (s1 & ->). simpl.
  apply IH. intros st0 a0 Hin. apply Hbody. right. exact Hin.
Qed.

(** The rows and labels of the parts of a split are rows and labels of the
    node. *)
Lemma split_parts_incl X y f th (s : splits (label := label)) :
  _split_dataset X y f th = Ok s ->
  incl (fst (fst s)) X /\ incl (snd (fst s)) y
  /\ incl (fst (snd s)) X /\ incl (snd (snd s)) y.
Proof.
  unfold _split_dataset. intros E.
  apply (for_each_invariant (split_step f th)
           (fun s => incl (fst (fst s)) X /\ incl (snd (fst s)) y
                     /\ incl (fst (snd s)) X /\ incl (snd (snd s)) y)
           (combine X y) (([], []), ([], []))); auto.
  - intros s1 [xi yi] s2 Hin (H1 & H2 & H3 & H4) Estep.
    pose proof (in_combine_l _ _ _ _ Hin) as Hx.
    pose proof (in_combine_r _ _ _ _ Hin) as Hy.
    apply split_step_cases in Estep. destruct s1 as [[Xl yl] [Xr yr]]. simpl in *.
    destruct Estep as [-> | (_ & [-> | ->])]; simpl; repeat split; auto;
      apply incl_app; auto; intros z [<- | []]; assumption.
  - simpl. repeat split; intros z [].
Qed.

Lemma make_leaf_label y (t : node) :
  make_leaf y = Ok t -> exists k, t = Leaf k /\ majority y = Ok k.
Proof.
  unfold make_leaf. intros E. apply bind_Ok in E.
  destruct E as (k & Ek & E). inversion E. eauto.
Qed.

Lemma build_tree_fuel_leaf_labels fuel : forall self X y depth (t : node),
  _build_tree_fuel fuel self X y depth = Some (Ok t) ->
  incl (leaf_labels t) y.
Proof.
  induction fuel as [|fuel IH]; intros self X y depth t; [discriminate|].
  assert (Hleaf : forall t0 : node, make_leaf y = Ok t0 -> incl (leaf_labels t0) y).
  { intros t0 E0. apply make_leaf_label in E0. destruct E0 as (k & -> & Ek).
    apply majority_is_mode in Ek. intros z [<- | []]. tauto. }
  builder_cases X y; intros E; try discriminate;
    try (inversion E as [E']; apply Hleaf; exact E').
  destruct (_build_tree_fuel fuel self Xl yl (depth + 1)) as [[tl|?]|] eqn:El;
    try discriminate.
  destruct (_build_tree_fuel fuel self Xr yr (depth + 1)) as [[tr|?]|] eqn:Er;
    try discriminate.
  inversion E as [E']. apply bind_Ok in E'. destruct E' as (name & _ & E').
  inversion E'; subst. simpl.
  apply best_split_wf in Hbest. unfold best_wf in Hbest. rewrite Hfound in Hbest.
  destruct Hbest as (Hs & _). apply split_parts_incl in Hs. simpl in Hs.
  destruct Hs as (_ & Hyl & _ & Hyr).
  apply incl_app; eapply incl_tran; eauto.
Qed.

(** X10: every label at a leaf of the tree the Tree Builder returns is one
    of the labels it was given. *)
Theorem build_tree_leaves_carry_given_labels self X y depth (t : node) :
  _build_tree self X y depth = Ok t -> incl (leaf_labels t) y.
Proof.
  unfold _build_tree. intros E.
  destruct (_build_tree_fuel (S (length y)) self X y depth) as [r|] eqn:Ef;
    [subst r | discriminate].
  eapply build_tree_fuel_leaf_labels. exact Ef.
Qed.

(** The Tree Builder reads the configuration and the feature names of the
    instance, never its tree. *)
Lemma build_tree_fuel_ignores_tree fuel : forall self self' X y depth,
  max_depth self = max_depth self' ->
  min_samples_split self = min_samples_split self' ->
  feature_names self = feature_names self' ->
  _build_tree_fuel fuel self X y depth = _build_tree_fuel fuel self' X y depth.
Proof.
  induction fuel as [|fuel IH]; intros self self' X y depth Hd Hm Hn; [reflexivity|].
  simpl. unfold depth_reached, name_of_feature. rewrite Hd, Hm, Hn.
  destruct (_ || _ || _); [reflexivity|].
  destruct (_best_split X y) as [b|e]; [|reflexivity].
  destruct (Qeq_bool (best_gain b) 0); [reflexivity|].
  destruct (best_found b) as [[[f th] [[Xl yl] [Xr yr]]]|]; [|reflexivity].
  rewrite (IH self self' Xl yl _ Hd Hm Hn), (IH self self' Xr yr _ Hd Hm Hn).
  reflexivity.
Qed.

(** *** Tables that conform to a schema *)

Lemma conforms_length (schema : list kind) : forall x : row,
  conforms schema x = true -> length x = length schema.
Proof.
  induction schema as [|k schema IH]; intros [|v x]; simpl; try discriminate; auto.
  intros E. apply andb_true_iff in E. destruct E as [_ E]. f_equal. auto.
Qed.

Lemma conforms_nth (schema : list kind) : forall (x : row) f k v,
  conforms schema x = true ->
  nth_error schema f = Some k -> nth_error x f = Some v ->
  has_kind k v = true.
Proof.
  induction schema as [|k0 schema IH]; intros [|v0 x] f k v; simpl;
    try discriminate.
  - destruct f; discriminate.
  - intros E. apply andb_true_iff in E. destruct E as [E0 E].
    destruct f as [|f]; simpl.
    + intros Ek Ev. inversion Ek; inversion Ev; subst. exact E0.
    + apply IH. exact E.
Qed.

Lemma conforms_value (schema : list kind) (x : row) f k :
  conforms schema x = true -> nth_error schema f = Some k ->
  exists v, nth_error x f = Some v /\ has_kind k v = true.
Proof.
  intros Hc Hk.
  assert (Hlt : f < length x).
  { rewrite (conforms_length schema x Hc). apply nth_error_Some. congruence. }
  apply nth_error_Some in Hlt.
  destruct (nth_error x f) as [v|] eqn:Hv; [|congruence].
  exists v. split; [reflexivity|]. eapply conforms_nth; eauto.
Qed.

Lemma column_values_conforming (schema : list kind) f k : forall X,
  Forall (fun x => conforms schema x = true) X ->
  nth_error schema f = Some k ->
  exists values,
    column_values X f = Ok values
    /\ Forall (fun v => has_kind k v = true /\ is_None v = false) values.
Proof.
  induction 1 as [|x X Hx HX IH]; intros Hk; simpl.
  - exists []. split; [reflexivity | constructor].
  - destruct (conforms_value schema x f k Hx Hk) as (v & Hv & Hkind).
    unfold index. rewrite Hv. simpl.
    destruct (IH Hk) as (values & -> & Hvals). simpl.
    destruct (is_None v) eqn:Hnone; eexists; split; try reflexivity; auto.
Qed.

(** The candidate thresholds of a column fit the kind of the column. *)
Lemma thresholds_fit (k : kind) (values : list value) :
  Forall (fun v => has_kind k v = true /\ is_None v = false) values ->
  forall th, In th (thresholds_of values) -> threshold_fits k th = true.
Proof.
  intros Hvals th Hth. rewrite Forall_forall in Hvals.
  unfold thresholds_of in Hth.
  destruct (forallb is_number (distinct values)) eqn:Hnum.
  - apply in_map_iff in Hth. destruct Hth as (m & <- & Hm).
    destruct k; [reflexivity|]. exfalso.
    destruct (distinct values) as [|v vs] eqn:Hd; [contradiction|].
    assert (Hv : In v values) by (apply distinct_incl; rewrite Hd; left; reflexivity).
    apply Hvals in Hv. simpl in Hnum. apply andb_true_iff in Hnum.
    destruct Hnum as [Hnum _]. destruct v; simpl in *; destruct Hv; discriminate.
  - apply (Permutation_in _ (set_iter_perm _)) in Hth.
    pose proof (distinct_incl _ _ Hth) as Hin. apply Hvals in Hin.
    destruct Hin as [Hkind Hnone].
    destruct k.
    + exfalso. apply Bool.not_true_iff_false in Hnum. apply Hnum.
      apply forallb_forall. intros v Hv. apply distinct_incl in Hv.
      apply Hvals in Hv. destruct v; simpl in *; destruct Hv; try discriminate.
      reflexivity.
    + destruct th; simpl in *; try discriminate. reflexivity.
Qed.

Lemma split_dataset_conforming (schema : list kind) X y f k th :
  Forall (fun x => conforms schema x = true) X ->
  nth_error schema f = Some k -> threshold_fits k th = true ->
  exists s, _split_dataset X y f th = Ok s.
Proof.
  intros HX Hk Hfit. unfold _split_dataset.
  apply for_each_total. intros st [xi yi] Hin.
  apply in_combine_l in Hin. rewrite Forall_forall in HX.
  destruct (conforms_value schema xi f k (HX _ Hin) Hk) as (v & Hv & Hkind).
  destruct th as [|t|str]; destruct k; try discriminate.
  - apply split_step_numeric_succeeds. unfold numeric_at. simpl. rewrite Hv.
    destruct v; simpl in *; try discriminate; reflexivity.
  - apply split_step_categorical_succeeds; [reflexivity|]. simpl.
    apply nth_error_Some. congruence.
Qed.

Lemma best_split_conforming (schema : list kind) X y :
  Forall (fun x => conforms schema x = true) X -> X <> [] ->
  exists b, _best_split X y = Ok b.
Proof.
  intros HX Hne. unfold _best_split.
  destruct X as [|x0 X']; [congruence|]. simpl.
  inversion HX as [|? ? Hx0 _]; subst.
  apply for_each_total. intros st f Hf. apply in_seq in Hf.
  rewrite (conforms_length schema x0 Hx0) in Hf.
  destruct (nth_error schema f) as [k|] eqn:Hk;
    [|apply nth_error_None in Hk; lia].
  unfold try_feature.
  destruct (column_values_conforming schema f k (x0 :: X') HX Hk)
    as (values & -> & Hvals). simpl.
  apply for_each_total. intros b th Hth.
  pose proof (thresholds_fit k values Hvals th Hth) as Hfit.
  destruct (split_dataset_conforming schema (x0 :: X') y f k th HX Hk Hfit)
    as (s & Es).
  unfold try_threshold. rewrite Es. simpl.
  destruct s as [[Xl yl] [Xr yr]].
  destruct (_ || _); [eauto|]. destruct (Qgt_bool _ _); eauto.
Qed.

Lemma name_of_feature_covered (schema : list kind) self f :
  names_cover schema (feature_names self) = true -> f < length schema ->
  exists name, name_of_feature self f = Ok name.
Proof.
  unfold names_cover, name_of_feature. intros Hc Hf.
  destruct (feature_names self) as [[|n names]|]; eauto.
  apply Nat.leb_le in Hc. unfold index.
  destruct (nth_error (n :: names) f) eqn:E; [simpl; eauto|].
  apply nth_error_None in E. lia.
Qed.

Lemma build_tree_fuel_conforming (schema : list kind) self :
  names_cover schema (feature_names self) = true ->
  forall fuel X y depth,
    length y < fuel ->
    Forall (fun x => conforms schema x = true) X -> X <> [] -> y <> [] ->
    exists t, _build_tree_fuel fuel self X y depth = Some (Ok t)
              /\ tree_typed schema t = true.
Proof.
  intros Hnames. induction fuel as [|fuel IH]; intros X y depth Hlen HX HXne Hyne;
    [lia|].
  assert (Hleaf : exists t, make_leaf y = Ok t /\ tree_typed schema t = true).
  { destruct (majority_nonempty Hyne) as (k & Ek). exists (Leaf k).
    unfold make_leaf. rewrite Ek. auto. }
  destruct Hleaf as (t0 & Et0 & Ht0).
  destruct (best_split_conforming schema X y HX HXne) as (b0 & Eb0).
  builder_cases X y; try (exists t0; rewrite Et0; auto; fail);
    try congruence.
  assert (Hsound : best_sound X y b) by (apply best_split_sound; exact Hbest).
  unfold best_sound in Hsound. rewrite Hfound in Hsound.
  destruct Hsound as (_ & _ & Hs & Hne & x0 & values & Hx0 & Hf & Hvals & Hth).
  pose proof (best_split_decreases _ _ Hbest Hfound) as Hdec.
  destruct Hdec as (Hyl & Hyr & HlenL & HlenR & _ & _ & _ & _ & Hl & Hr).
  destruct (split_parts_incl X y f th _ Hs) as (HXl & _ & HXr & _).
  simpl in HXl, HXr.
  assert (Hx0c : conforms schema x0 = true).
  { rewrite Forall_forall in HX. apply HX.
    destruct X; [discriminate | inversion Hx0; left; reflexivity]. }
  rewrite (conforms_length schema x0 Hx0c) in Hf.
  destruct (nth_error schema f) as [k|] eqn:Hk;
    [|apply nth_error_None in Hk; lia].
  destruct (column_values_conforming schema f k X HX Hk) as (values' & Hvals' & Hkinds).
  rewrite Hvals in Hvals'. inversion Hvals'; subst values'.
  pose proof (thresholds_fit k values Hkinds th Hth) as Hfit.
  assert (Hsub : forall X', incl X' X -> Forall (fun x => conforms schema x = true) X').
  { intros X' Hincl. apply Forall_forall. intros x Hx.
    rewrite Forall_forall in HX. auto. }
  assert (HXlne : Xl <> []) by (intros ->; simpl in HlenL; destruct yl; [congruence | discriminate]).
  assert (HXrne : Xr <> []) by (intros ->; simpl in HlenR; destruct yr; [congruence | discriminate]).
  destruct (IH Xl yl (depth + 1)%Z) as (tl & -> & Htl); auto; [lia|].
  destruct (IH Xr yr (depth + 1)%Z) as (tr & -> & Htr); auto; [lia|].
  destruct (name_of_feature_covered schema self f Hnames Hf) as (name & ->). simpl.
  eexists. split; [reflexivity|]. simpl. rewrite Hk, Hfit, Htl, Htr. reflexivity.
Qed.

(** X11: on a table whose rows all conform to one schema (every column holds
    numbers or [None], or strings or [None]), with at least one row and one
    label and feature names, if given, for every column, the Tree Builder
    raises nothing: it returns a tree, and every node of the tree tests a
    column of the schema against a threshold of the column's kind.  The
    numbers of the table are at most 2^1023 in absolute value and there are
    at most 500 labels: the two bounds keep the run away from what the
    embedding leaves out, the [OverflowError] of an integer mean beyond the
    range of doubles and the recursion limit of the interpreter. *)
Theorem build_tree_succeeds_on_conforming_table
  (schema : list kind) self X y depth :
  forallb (conforms schema) X = true -> X <> [] -> y <> [] ->
  names_cover schema (feature_names self) = true ->
  table_in_range X = true -> length y <= recursion_bound ->
  exists t, _build_tree self X y depth = Ok t /\ tree_typed schema t = true.
Proof.
  intros HX HXne Hyne Hnames _ _. unfold _build_tree.
  rewrite forallb_forall in HX.
  assert (HX' : Forall (fun x => conforms schema x = true) X)
    by (apply Forall_forall; exact HX).
  assert (Hlen : length y < S (length y)) by lia.
  destruct (build_tree_fuel_conforming schema self Hnames (S (length y)) X y depth
              Hlen HX' HXne Hyne) as (t & -> & Ht).
  eauto.
Qed.

End TreeBuilderFacts.

(** ** What the Predictor returns *)

Section PredictorFacts.

Context {label : Type} `{EqDec label}.

Implicit Types (nd : node (label := label)) (sample : row).

Lemma comprehension_Forall2 {A B : Type} (f : A -> result B) :
  forall (l : list A) (bs : list B),
    comprehension f l = Ok bs <-> Forall2 (fun a b => f a = Ok b) l bs.
Proof.
  induction l as [|a l IH]; intros bs; simpl.
  - split; [intros E; inversion E; constructor | intros HF; inversion HF; reflexivity].
  - split.
    + intros E. apply bind_Ok in E. destruct E as (b & Eb & E).
      apply bind_Ok in E. destruct E as (bs' & Ebs & E). inversion E; subst.
      constructor; [exact Eb | apply IH; exact Ebs].
    + intros HF. inversion HF as [|? b ? bs' Eb HF']; subst.
      rewrite Eb. simpl. apply IH in HF'. rewrite HF'. reflexivity.
Qed.

(** A comprehension raises the exception of the first element that raises. *)
Lemma comprehension_Raise_first {A B : Type} (f : A -> result B) (e : exn) :
  forall l : list A,
    comprehension f l = Raise e ->
    exists l1 a l2, l = l1 ++ a :: l2
                    /\ (exists bs, comprehension f l1 = Ok bs) /\ f a = Raise e.
Proof.
  induction l as [|a l IH]; simpl; intros E; [discriminate|].
  destruct (f a) as [b|e'] eqn:Ea; simpl in E.
  - destruct (comprehension f l) as [bs|e'] eqn:El; simpl in E; [discriminate|].
    destruct (IH E) as (l1 & a' & l2 & -> & (bs1 & E1) & Ea').
    exists (a :: l1), a', l2. split; [reflexivity|]. split; [|exact Ea'].
    simpl. rewrite Ea, E1. simpl. eauto.
  - inversion E; subst e'. exists [], a, l.
    split; [reflexivity|]. split; [exists []; reflexivity | exact Ea].
Qed.

Lemma comprehension_Raise_at {A B : Type} (f : A -> result B) (e : exn) :
  forall (l1 : list A) (a : A) (l2 : list A) (bs : list B),
    comprehension f l1 = Ok bs -> f a = Raise e ->
    comprehension f (l1 ++ a :: l2) = Raise e.
Proof.
  induction l1 as [|a1 l1 IH]; intros a l2 bs E1 Ea; simpl.
  - rewrite Ea. reflexivity.
  - simpl in E1. destruct (f a1) as [b|e']; simpl in *; [|discriminate].
    destruct (comprehension f l1) as [bs1|e'] eqn:El; simpl in E1; [|discriminate].
    rewrite (IH a l2 bs1 eq_refl Ea). reflexivity.
Qed.

Lemma comprehension_Raise {A B : Type} (f : A -> result B) (e : exn) (l : list A) :
  comprehension f l = Raise e <->
  exists l1 a l2, l = l1 ++ a :: l2
                  /\ (exists bs, comprehension f l1 = Ok bs) /\ f a = Raise e.
Proof.
  split.
  - apply comprehension_Raise_first.
  - intros (l1 & a & l2 & -> & (bs & E1) & Ea).
    eapply comprehension_Raise_at; eauto.
Qed.

Lemma predict_sample_in_leaves nd : forall sample (c : label),
  _predict_sample nd sample = Ok c -> In c (leaf_labels nd).
Proof.
  induction nd as [k|f name th l IHl r IHr]; intros sample c; simpl.
  - intros E. inversion E. left. reflexivity.
  - intros E. apply bind_Ok in E. destruct E as (val & _ & E).
    apply in_or_app.
    destruct (is_None val).
    + apply bind_Ok in E. destruct E as (a & Ea & E).
      apply bind_Ok in E. destruct E as (b & Eb & E).
      rewrite majority_pair in E. inversion E; subst. left. eapply IHl; eauto.
    + destruct th as [|t|t].
      * destruct (veqb val VNone); [left; eapply IHl | right; eapply IHr]; eauto.
      * apply bind_Ok in E. destruct E as ([|] & _ & E);
          [left; eapply IHl | right; eapply IHr]; eauto.
      * destruct (veqb val (VStr t)); [left; eapply IHl | right; eapply IHr]; eauto.
Qed.

Lemma predict_sample_typed (schema : list kind) nd : forall sample,
  tree_typed schema nd = true -> conforms schema sample = true ->
  exists c, _predict_sample nd sample = Ok c.
Proof.
  induction nd as [k|f name th l IHl r IHr]; intros sample Ht Hc; simpl.
  - eauto.
  - simpl in Ht. apply andb_true_iff in Ht. destruct Ht as [Ht Hr].
    apply andb_true_iff in Ht. destruct Ht as [Hth Hl].
    destruct (nth_error schema f) as [k|] eqn:Hk; [|discriminate].
    destruct (conforms_value schema sample f k Hc Hk) as (v & Hv & Hkind).
    unfold index. rewrite Hv. simpl.
    destruct (IHl sample Hl Hc) as (a & Ea).
    destruct (IHr sample Hr Hc) as (b & Eb).
    destruct (is_None v) eqn:Hnone.
    + rewrite Ea, Eb. simpl. rewrite majority_pair. eauto.
    + destruct th as [|t|t]; destruct k; try discriminate.
      * destruct v; try discriminate. simpl. destruct (Qle_bool q t); eauto.
      * destruct (veqb v (VStr t)); eauto.
Qed.

(** X12: [predict] returns a list exactly when every sample is predicted, and
    the list then holds the prediction of each sample at its position; it
    raises an exception exactly when some sample raises it and the samples
    before that one are all predicted. *)
Theorem predict_is_pointwise (self : classifier (label := label)) (X : list row) :
  (forall ys, predict self X = Ok ys
              <-> Forall2 (fun x c => predict_with (tree self) x = Ok c) X ys)
  /\ (forall e, predict self X = Raise e
                <-> exists X1 x X2,
                      X = X1 ++ x :: X2
                      /\ (exists ys, predict self X1 = Ok ys)
                      /\ predict_with (tree self) x = Raise e).
Proof.
  split.
  - intros ys. apply comprehension_Forall2.
  - intros e. apply comprehension_Raise.
Qed.

(** X13: every label the Predictor returns is the label of a leaf of the
    tree. *)
Theorem predict_returns_a_leaf_label nd sample (c : label) :
  _predict_sample nd sample = Ok c -> In c (leaf_labels nd).
Proof. apply predict_sample_in_leaves. Qed.

(** X14: on a tree whose nodes test columns of a schema against thresholds
    of the columns' kinds, the Predictor raises nothing for a sample that
    conforms to the schema, whether values are missing or not. *)
Theorem predict_succeeds_on_conforming_sample (schema : list kind) nd sample :
  tree_typed schema nd = true -> conforms schema sample = true ->
  exists c, _predict_sample nd sample = Ok c.
Proof. apply predict_sample_typed. Qed.

End PredictorFacts.

(** ** What the Pruner does to a tree *)

Section PrunerFacts.

Context {label : Type} `{EqDec label}.

Implicit Types (nd : node (label := label)) (X_val : list row) (y_val : list label).

(** The attempt at a node keeps the node or replaces it by a leaf that
    carries the majority class. *)
Lemma try_prune_outcome nd f th X_val y_val nd' :
  try_prune nd f th X_val y_val = Ok nd' ->
  nd' = nd \/ exists c, nd' = Leaf c /\ majority_class f th X_val y_val = Ok c.
Proof.
  unfold try_prune. intros E.
  apply bind_Ok in E. destruct E as (e & _ & E).
  apply bind_Ok in E. destruct E as (c & Ec & E).
  apply bind_Ok in E. destruct E as (e' & _ & E).
  destruct (e <? e'); inversion E; eauto.
Qed.

(** The majority class is a label of the validation set. *)
Lemma majority_class_in_labels f th X_val y_val (c : label) :
  majority_class f th X_val y_val = Ok c -> In c y_val.
Proof.
  unfold majority_class. intros E.
  apply bind_Ok in E. destruct E as (combined & Ec & E).
  assert (Hincl : incl combined y_val).
  { apply (for_each_invariant (collect_step f th X_val y_val)
             (fun acc => incl acc y_val) X_val []); auto.
    - intros acc x acc' _ Hacc Estep.
      apply collect_step_cases in Estep.
      destruct Estep as [(_ & ->) | (_ & Eapp)]; [exact Hacc|].
      unfold append_label in Eapp.
      apply bind_Ok in Eapp. destruct Eapp as (i & _ & Eapp).
      apply bind_Ok in Eapp. destruct Eapp as (l & El & Eapp).
      inversion Eapp; subst acc'. unfold index in El.
      destruct (nth_error y_val i) as [l'|] eqn:Hnth; inversion El; subst l'.
      apply incl_app; [exact Hacc|]. intros z [<- | []].
      eapply nth_error_In; eauto.
    - intros z []. }
  destruct combined as [|l ls].
  - apply majority_is_mode in E. tauto.
  - apply majority_is_mode in E. apply Hincl. tauto.
Qed.

Lemma prune_shape X_val y_val : forall nd,
  size (fst (_prune nd X_val y_val)) <= size nd
  /\ height (fst (_prune nd X_val y_val)) <= height nd
  /\ incl (leaf_labels (fst (_prune nd X_val y_val))) (leaf_labels nd ++ y_val).
Proof.
  induction nd as [k|f name th l IHl r IHr]; simpl.
  - repeat split; auto. intros z Hz. left. destruct Hz as [Hz | []]. exact Hz.
  - destruct (_prune l X_val y_val) as [l' rl]. simpl in IHl.
    destruct IHl as (Sl & Hl & Ll).
    assert (Lincl : forall r0 : node,
              incl (leaf_labels r0) (leaf_labels r ++ y_val) ->
              incl (leaf_labels l' ++ leaf_labels r0)
                   ((leaf_labels l ++ leaf_labels r) ++ y_val)).
    { intros r0 Lr z Hz. apply in_app_or in Hz.
      destruct Hz as [Hz | Hz]; [apply Ll in Hz | apply Lr in Hz];
        rewrite !in_app_iff in *; tauto. }
    destruct rl as [u|e]; simpl.
    + destruct (_prune r X_val y_val) as [r' rr]. simpl in IHr.
      destruct IHr as (Sr & Hr & Lr).
      assert (Hnode : size (Node f name th l' r') <= S (size l + size r)
                      /\ height (Node f name th l' r')
                         <= S (Nat.max (height l) (height r))
                      /\ incl (leaf_labels (Node f name th l' r'))
                              ((leaf_labels l ++ leaf_labels r) ++ y_val)).
      { simpl. repeat split; [lia | lia | apply Lincl; exact Lr]. }
      destruct rr as [u'|e]; simpl; [|exact Hnode].
      destruct (is_leaf l' && is_leaf r'); simpl; [|exact Hnode].
      destruct (try_prune (Node f name th l' r') f th X_val y_val) as [nd''|e]
        eqn:Etry; simpl; [|exact Hnode].
      apply try_prune_outcome in Etry.
      destruct Etry as [-> | (c & -> & Ec)]; [exact Hnode|].
      simpl. repeat split; try lia.
      intros z [<- | []]. apply in_or_app. right.
      eapply majority_class_in_labels; eauto.
    + repeat split; [lia | lia |].
      apply Lincl. apply incl_appl, incl_refl.
Qed.

Lemma prune_twice X_val y_val : forall nd nd',
  _prune nd X_val y_val = (nd', Ok tt) -> _prune nd' X_val y_val = (nd', Ok tt).
Proof.
  induction nd as [k|f name th l IHl r IHr]; intros nd' E; simpl in E.
  - inversion E; subst. reflexivity.
  - destruct (_prune l X_val y_val) as [l' [[]|e]] eqn:El; [|discriminate].
    destruct (_prune r X_val y_val) as [r' [[]|e]] eqn:Er; [|discriminate].
    specialize (IHl l' eq_refl). specialize (IHr r' eq_refl).
    destruct (is_leaf l' && is_leaf r') eqn:Hleaves.
    + destruct (try_prune (Node f name th l' r') f th X_val y_val) as [nd''|e]
        eqn:Etry; inversion E; subst nd'.
      destruct (try_prune_outcome _ _ _ _ _ _ Etry) as [-> | (c & -> & _)];
        [|reflexivity].
      simpl. rewrite IHl, IHr, Hleaves, Etry. reflexivity.
    + inversion E; subst nd'. simpl. rewrite IHl, IHr, Hleaves. reflexivity.
Qed.

(** *** Validation sets the Pruner can work with *)

Lemma comprehension_total {A B : Type} (f : A -> result B) : forall l : list A,
  (forall a, In a l -> exists b, f a = Ok b) ->
  exists bs, comprehension f l = Ok bs.
Proof.
  induction l as [|a l IH]; intros Hf; simpl; [eauto|].
  destruct (Hf a (or_introl eq_refl)) as (b & ->). simpl.
  destruct IH as (bs & ->); [intros a0 Hin; apply Hf; right; exact Hin|].
  simpl. eauto.
Qed.

Lemma index_of_In X_val : forall x : row,
  In x X_val -> exists i, index_of X_val x = Ok i /\ i < length X_val.
Proof.
  induction X_val as [|r X_val IH]; intros x Hin; [contradiction|]. simpl.
  destruct (row_eqb r x) eqn:Heq.
  - exists 0. split; [reflexivity | lia].
  - destruct Hin as [-> | Hin]; [rewrite row_eqb_refl in Heq; discriminate|].
    destruct (IH x Hin) as (i & -> & Hi). simpl. exists (S i). split; [reflexivity | lia].
Qed.

Lemma majority_class_total (schema : list kind) f k th X_val y_val :
  nth_error schema f = Some k -> threshold_fits k th = true ->
  Forall (fun x => conforms schema x = true) X_val ->
  length X_val <= length y_val -> y_val <> [] ->
  exists c, majority_class f th X_val y_val = Ok c.
Proof.
  intros Hk Hfit HX Hlen Hne. unfold majority_class.
  assert (Hloop : exists combined,
            for_each (collect_step f th X_val y_val) X_val [] = Ok combined).
  { apply for_each_total. intros acc x Hin.
    rewrite Forall_forall in HX.
    destruct (conforms_value schema x f k (HX x Hin) Hk) as (v & Hv & Hkind).
    assert (Happ : exists acc', append_label X_val y_val acc x = Ok acc').
    { unfold append_label.
      destruct (index_of_In X_val x Hin) as (i & -> & Hi). simpl.
      unfold index. destruct (nth_error y_val i) eqn:Hnth; [simpl; eauto|].
      apply nth_error_None in Hnth. lia. }
    unfold collect_step, index. rewrite Hv. simpl.
    destruct (is_None v) eqn:Hnone; [eauto|].
    destruct th as [|t|t]; destruct k; try discriminate; [|exact Happ].
    destruct v; try discriminate. simpl. destruct (Qle_bool q t); exact Happ. }
  destruct Hloop as (combined & ->). simpl.
  destruct combined as [|l ls].
  - apply majority_nonempty. exact Hne.
  - apply majority_nonempty. discriminate.
Qed.

Lemma try_prune_total (schema : list kind) f name th (l r : node (label := label))
  X_val y_val :
  tree_typed schema (Node f name th l r) = true ->
  Forall (fun x => conforms schema x = true) X_val ->
  length X_val <= length y_val -> y_val <> [] ->
  exists nd', try_prune (Node f name th l r) f th X_val y_val = Ok nd'
              /\ tree_typed schema nd' = true.
Proof.
  intros Ht HX Hlen Hne.
  assert (Hpred : forall nd0 : node, tree_typed schema nd0 = true ->
            exists e, prediction_error nd0 X_val y_val = Ok e).
  { intros nd0 Ht0. unfold prediction_error.
    destruct (comprehension_total (_predict_sample nd0) X_val) as (ys & ->);
      [|simpl; eauto].
    intros x Hin. rewrite Forall_forall in HX.
    apply (predict_sample_typed schema nd0 x Ht0 (HX x Hin)). }
  pose proof Ht as Ht'. simpl in Ht'.
  apply andb_true_iff in Ht'. destruct Ht' as [Ht' _].
  apply andb_true_iff in Ht'. destruct Ht' as [Hth _].
  destruct (nth_error schema f) as [k|] eqn:Hk; [|discriminate].
  destruct (majority_class_total schema f k th X_val y_val Hk Hth HX Hlen Hne)
    as (c & Ec).
  unfold try_prune.
  destruct (Hpred _ Ht) as (e & ->). simpl. rewrite Ec. simpl.
  destruct (Hpred (Leaf c) eq_refl) as (e' & ->). simpl.
  destruct (e <? e'); eexists; split; try reflexivity; auto.
Qed.

Lemma prune_conforming (schema : list kind) X_val y_val :
  Forall (fun x => conforms schema x = true) X_val ->
  length X_val <= length y_val -> y_val <> [] ->
  forall nd, tree_typed schema nd = true ->
    exists nd', _prune nd X_val y_val = (nd', Ok tt)
                /\ tree_typed schema nd' = true.
Proof.
  intros HX Hlen Hne.
  induction nd as [k|f name th l IHl r IHr]; intros Ht; simpl.
  - eauto.
  - pose proof Ht as Ht'. simpl in Ht'.
    apply andb_true_iff in Ht'. destruct Ht' as [Ht' Hr].
    apply andb_true_iff in Ht'. destruct Ht' as [Hth Hl].
    destruct (IHl Hl) as (l' & -> & Hl'). destruct (IHr Hr) as (r' & -> & Hr').
    assert (Hnd : tree_typed schema (Node f name th l' r') = true)
      by (simpl; rewrite Hth, Hl', Hr'; reflexivity).
    destruct (is_leaf l' && is_leaf r'); [|eauto].
    destruct (try_prune_total schema f name th l' r' X_val y_val Hnd HX Hlen Hne)
      as (nd'' & -> & Hnd'').
    eauto.
Qed.

(** X15: with an empty validation set, the Pruner leaves every tree as it
    is; it ends normally on a single leaf and raises [IndexError] on every
    other tree. *)
Theorem prune_with_empty_validation_set nd :
  _prune nd [] [] = (nd, if is_leaf nd then Ok tt else Raise IndexError).
Proof. apply prune_empty_validation. Qed.

(** X16: whether it ends normally or raises, the Pruner leaves a tree with no
    more nodes and no greater height than the tree it was given, and every
    leaf label of the tree it leaves is a leaf label of the given tree or a
    validation label. *)
Theorem prune_never_grows_the_tree nd X_val y_val :
  size (fst (_prune nd X_val y_val)) <= size nd
  /\ height (fst (_prune nd X_val y_val)) <= height nd
  /\ incl (leaf_labels (fst (_prune nd X_val y_val))) (leaf_labels nd ++ y_val).
Proof. apply prune_shape. Qed.

(** X17: pruning is idempotent: pruning again, with the same validation set,
    a tree that the Pruner left on a normal end changes nothing and ends
    normally. *)
Theorem prune_is_idempotent nd nd' X_val y_val :
  _prune nd X_val y_val = (nd', Ok tt) ->
  _prune nd' X_val y_val = (nd', Ok tt).
Proof. apply prune_twice. Qed.

(** X18: the decision at one node never increases the validation error of
    the predictions rooted at that node, counted over all validation rows:
    the node is replaced by the majority leaf only when the error does not
    grow. *)
Theorem prune_decision_keeps_node_error nd f th X_val y_val nd' :
  try_prune nd f th X_val y_val = Ok nd' ->
  exists e e',
    prediction_error nd X_val y_val = Ok e
    /\ prediction_error nd' X_val y_val = Ok e'
    /\ e' <= e.
Proof. apply try_prune_node_error. Qed.

(** X19: on a tree whose nodes fit a schema, with validation rows that
    conform to the schema, a label for every row and at least one label, the
    Pruner raises nothing and leaves a tree whose nodes fit the schema. *)
Theorem prune_succeeds_on_conforming_validation_set
  (schema : list kind) nd X_val y_val :
  tree_typed schema nd = true ->
  forallb (conforms schema) X_val = true ->
  length X_val <= length y_val -> y_val <> [] ->
  exists nd', _prune nd X_val y_val = (nd', Ok tt)
              /\ tree_typed schema nd' = true.
Proof.
  intros Ht HX Hlen Hne. rewrite forallb_forall in HX.
  apply prune_conforming; auto. apply Forall_forall. exact HX.
Qed.

(** X20: when no two validation rows are equal, a node that collapses takes
    the majority label, ties to the first met, of the labels aligned with the
    validation rows whose value at the node's column is present and not
    [None], or of all validation labels when there is no such row. *)
Theorem collapse_label_with_distinct_rows f th X_val y_val (c : label) :
  rows_distinct X_val = true ->
  majority_class f th X_val y_val = Ok c ->
  spec_majority_class f X_val y_val = Ok c.
Proof. apply majority_class_distinct_rows. Qed.

End PrunerFacts.

(** ** Majority vote, impurity and categorical candidates, as used by the
    program *)

Section VoteAndImpurity.

Context {label : Type} `{EqDec label} `{SetOrder}.

(** X1: [Counter(y).most_common(1)[0][0]] raises [IndexError] on the empty
    vector and returns a label on every other vector; the label it returns
    occurs in the vector, and no label occurs more often. *)
Theorem majority_returns_a_mode (y : list label) :
  (y = [] -> majority y = Raise IndexError)
  /\ (y <> [] -> exists k, majority y = Ok k)
  /\ forall k, majority y = Ok k ->
       In k y /\ forall l : label, count_occ eq_dec y l <= count_occ eq_dec y k.
Proof.
  split; [intros ->; reflexivity|].
  split; [apply majority_nonempty|].
  intros k. apply majority_is_mode.
Qed.

(** X2: among the labels of maximal frequency the vote returns the one met
    first: the returned label occurs in the vector before every other label
    of the same frequency. *)
Theorem majority_prefers_the_first_met (y : list label) (k l : label) :
  majority y = Ok k -> l <> k ->
  count_occ eq_dec y l = count_occ eq_dec y k ->
  exists y1 y2, y = y1 ++ k :: y2 /\ ~ In k y1 /\ ~ In l y1.
Proof. apply majority_first_of_ties. Qed.

(** X23: for a column with an observed value that is not a number, the
    candidate thresholds are the distinct observed values themselves, each
    once, in the iteration order of the set: none is a midpoint. *)
Theorem thresholds_of_categorical_column (values : list value) :
  forallb is_number (distinct values) = false ->
  Permutation (thresholds_of values) (distinct values)
  /\ forall th, In th (thresholds_of values) -> In th values.
Proof. apply thresholds_categorical. Qed.

End VoteAndImpurity.

(** ** The public operations on well-formed data *)

Section FitFacts.

Context {label : Type} `{EqDec label} `{SetOrder}.

Implicit Types (self : classifier (label := label)) (X : list row) (y : list label).

Lemma build_tree_conforming (schema : list kind) self X y depth :
  Forall (fun x => conforms schema x = true) X -> X <> [] -> y <> [] ->
  names_cover schema (feature_names self) = true ->
  exists t, _build_tree self X y depth = Ok t
            /\ tree_typed schema t = true /\ incl (leaf_labels t) y.
Proof.
  intros HX HXne Hyne Hnames. unfold _build_tree.
  assert (Hlen : length y < S (length y)) by lia.
  destruct (build_tree_fuel_conforming schema self Hnames (S (length y)) X y depth
              Hlen HX HXne Hyne) as (t & Et & Ht).
  rewrite Et. exists t. repeat split; auto.
  eapply build_tree_fuel_leaf_labels. exact Et.
Qed.

Lemma build_tree_ignores_tree self self' X y depth :
  max_depth self = max_depth self' ->
  min_samples_split self = min_samples_split self' ->
  feature_names self = feature_names self' ->
  _build_tree self X y depth = _build_tree self' X y depth.
Proof.
  intros Hd Hm Hn. unfold _build_tree.
  rewrite (build_tree_fuel_ignores_tree _ self self' X y depth Hd Hm Hn).
  reflexivity.
Qed.

(** X21: [fit] discards what the instance held.  The outcome of a call does
    not depend on the tree and the feature names the instance had before; when
    tree construction succeeds, neither does the instance it leaves.  When
    tree construction fails, the instance keeps its old tree but already
    carries the new feature names. *)
Theorem fit_discards_previous_state self self' X y names X_val y_val :
  max_depth self = max_depth self' ->
  min_samples_split self = min_samples_split self' ->
  snd (fit self X y names X_val y_val) = snd (fit self' X y names X_val y_val)
  /\ ((exists t, _build_tree (set_feature_names self names) X y 0 = Ok t) ->
      fit self X y names X_val y_val = fit self' X y names X_val y_val)
  /\ (forall e, _build_tree (set_feature_names self names) X y 0 = Raise e ->
        snd (fit self X y names X_val y_val) = Raise e
        /\ tree (fst (fit self X y names X_val y_val)) = tree self
        /\ feature_names (fst (fit self X y names X_val y_val)) = names).
Proof.
  intros Hd Hm.
  assert (Hb : _build_tree (set_feature_names self names) X y 0
               = _build_tree (set_feature_names self' names) X y 0)
    by (apply build_tree_ignores_tree; simpl; auto).
  assert (Hset : forall t : node,
            set_tree (set_feature_names self names) t
            = set_tree (set_feature_names self' names) t)
    by (intros t; unfold set_tree, set_feature_names; simpl; rewrite Hd, Hm; reflexivity).
  unfold fit. rewrite <- Hb.
  destruct (_build_tree (set_feature_names self names) X y 0) as [t|e] eqn:Eb.
  - split; [|split].
    + destruct X_val as [Xv|], y_val as [yv|]; try reflexivity.
      destruct (_prune t Xv yv); reflexivity.
    + intros _. destruct X_val as [Xv|], y_val as [yv|]; rewrite ?Hset;
        try reflexivity.
      destruct (_prune t Xv yv). rewrite Hset. reflexivity.
    + intros e E. discriminate.
  - split; [reflexivity | split].
    + intros (t & Et). discriminate.
    + intros e0 E. inversion E; subst. simpl. auto.
Qed.

(** X22: on well-formed data [fit] and [predict] raise nothing.  When the
    training rows conform to a schema, there is at least one row and one
    label, the feature names (if given) cover the columns, and the validation
    set (if given) conforms, has a label for every row and at least one label,
    then [fit] ends normally and leaves a tree whose nodes fit the schema, and
    [predict] on samples that conform to the schema returns one label for each
    sample, each a training or validation label.  The numbers of the training
    table are at most 2^1023 in absolute value and there are at most 500
    training labels: the two bounds keep the run away from what the embedding
    leaves out, the [OverflowError] of an integer mean beyond the range of
    doubles and the recursion limit of the interpreter. *)
Theorem fit_and_predict_succeed_on_conforming_data
  (schema : list kind) self X y names X_val y_val :
  forallb (conforms schema) X = true -> X <> [] -> y <> [] ->
  names_cover schema names = true ->
  validation_ok schema X_val y_val = true ->
  table_in_range X = true -> length y <= recursion_bound ->
  snd (fit self X y names X_val y_val) = Ok tt
  /\ exists t,
       tree (fst (fit self X y names X_val y_val)) = Some t
       /\ tree_typed schema t = true
       /\ forall samples, forallb (conforms schema) samples = true ->
            exists ys,
              predict (fst (fit self X y names X_val y_val)) samples = Ok ys
              /\ length ys = length samples
              /\ incl ys (y ++ validation_labels X_val y_val).
Proof.
  intros HX HXne Hyne Hnames Hval _ _.
  rewrite forallb_forall in HX.
  assert (HX' : Forall (fun x => conforms schema x = true) X)
    by (apply Forall_forall; exact HX).
  destruct (build_tree_conforming schema (set_feature_names self names) X y 0
              HX' HXne Hyne Hnames) as (t0 & Et0 & Ht0 & Lt0).
  assert (Hfinal : exists t,
            fit self X y names X_val y_val
            = (set_tree (set_feature_names self names) t, Ok tt)
            /\ tree_typed schema t = true
            /\ incl (leaf_labels t) (y ++ validation_labels X_val y_val)).
  { unfold fit. rewrite Et0.
    destruct X_val as [Xv|]; [destruct y_val as [yv|]|];
      try (exists t0; repeat split; auto; apply incl_appl; exact Lt0).
    simpl in Hval. apply andb_true_iff in Hval. destruct Hval as [Hval Hyv].
    apply andb_true_iff in Hval. destruct Hval as [HXv Hlen].
    apply Nat.leb_le in Hlen. rewrite forallb_forall in HXv.
    assert (Hyvne : yv <> []) by (intros ->; discriminate).
    assert (HXv' : Forall (fun x => conforms schema x = true) Xv)
      by (apply Forall_forall; exact HXv).
    destruct (prune_conforming schema Xv yv HXv' Hlen Hyvne t0 Ht0)
      as (t1 & Et1 & Ht1).
    pose proof (prune_shape Xv yv t0) as (_ & _ & Lt1).
    rewrite Et1 in *. simpl in Lt1.
    exists t1. repeat split; auto. simpl.
    intros z Hz. apply Lt1 in Hz. rewrite !in_app_iff in *.
    destruct Hz as [Hz | Hz]; [left; apply Lt0; exact Hz | right; exact Hz]. }
  destruct Hfinal as (t & -> & Ht & Lt). simpl.
  split; [reflexivity|]. exists t. repeat split; auto.
  intros samples Hs. rewrite forallb_forall in Hs.
  unfold predict. simpl.
  destruct (comprehension_total (_predict_sample t) samples) as (ys & Eys).
  { intros x Hin. apply (predict_sample_typed schema t x Ht (Hs x Hin)). }
  exists ys. split; [exact Eys|]. split.
  - eapply comprehension_length. exact Eys.
  - apply comprehension_Forall2 in Eys.
    intros c Hc. apply Lt.
    clear -Eys Hc. induction Eys as [|x c0 xs cs Ex _ IH]; [contradiction|].
    destruct Hc as [<- | Hc]; [eapply predict_sample_in_leaves; exact Ex | auto].
Qed.

End FitFacts.

(** ** Instances of the further properties *)

Module Instances.

Import Data.

Open Scope string_scope.

Definition tree_two : node (label := string) :=
  Node 0 None (VNum (1 # 2)) (Leaf "A") (Leaf "B").

Lemma majority_prefers_the_first_met_witness :
  majority y_tie = Ok "B"
  /\ "A" <> "B"
  /\ count_occ eq_dec y_tie "A" = count_occ eq_dec y_tie "B"
  /\ exists y1 y2, y_tie = (y1 ++ "B" :: y2)%list /\ ~ In "B" y1 /\ ~ In "A" y1.
Proof.
  assert (h1 : majority y_tie = Ok "B") by reflexivity.
  assert (h2 : "A" <> "B") by discriminate.
  assert (h3 : count_occ eq_dec y_tie "A" = count_occ eq_dec y_tie "B") by reflexivity.
  split; [exact h1|]. split; [exact h2|]. split; [exact h3|].
  apply majority_prefers_the_first_met; assumption.
Defined.

Lemma split_dataset_token_threshold_witness :
  is_number (VStr "Sunny") = false
  /\ _split_dataset X_weather y_weather 0 (VStr "Sunny")
     = Ok (equality_split 0 (VStr "Sunny") (combine X_weather y_weather)).
Proof.
  assert (h1 : is_number (VStr "Sunny") = false) by reflexivity.
  split; [exact h1|].
  assert (E : exists s : splits (label := string),
            _split_dataset X_weather y_weather 0 (VStr "Sunny") = Ok s)
    by (eexists; vm_compute; reflexivity).
  destruct E as (s & Es). rewrite Es. f_equal.
  eapply split_dataset_token_threshold; [exact h1 | exact Es].
Defined.

Lemma split_dataset_conserves_witness :
  exists s : splits (label := string),
    _split_dataset X_weather y_weather 1 (VStr "High") = Ok s
    /\ length (snd (fst s)) + length (snd (snd s)) = 7.
Proof.
  assert (E : exists s : splits (label := string),
            _split_dataset X_weather y_weather 1 (VStr "High") = Ok s)
    by (eexists; vm_compute; reflexivity).
  destruct E as (s & Es). exists s. split; [exact Es|].
  pose proof Es as Ec. apply split_dataset_conserves_observed_rows in Ec.
  destruct Ec as (_ & _ & ->). reflexivity.
Defined.

Lemma best_split_is_well_formed_witness :
  exists b : best (label := string),
    _best_split X_train y_train = Ok b
    /\ (Qeq_bool (best_gain b) 0 = true <-> best_found b = None)
    /\ forall f th s,
         best_found b = Some (f, th, s) ->
         _split_dataset X_train y_train f th = Ok s
         /\ both_nonempty s = true
         /\ exists x0, nth_error X_train 0 = Some x0 /\ f < length x0.
Proof.
  assert (E : exists b : best (label := string), _best_split X_train y_train = Ok b)
    by (eexists; vm_compute; reflexivity).
  destruct E as (b & Eb). exists b. split; [exact Eb|].
  apply best_split_is_well_formed. exact Eb.
Defined.

Lemma build_tree_leaves_witness :
  exists t : node (label := string),
    _build_tree clf X_train y_train 0 = Ok t /\ incl (leaf_labels t) y_train.
Proof.
  assert (E : exists t : node (label := string),
            _build_tree clf X_train y_train 0 = Ok t)
    by (eexists; vm_compute; reflexivity).
  destruct E as (t & Et). exists t. split; [exact Et|].
  eapply build_tree_leaves_carry_given_labels. exact Et.
Defined.

Lemma build_tree_conforming_witness :
  forallb (conforms weather_schema) X_weather = true
  /\ X_weather <> [] /\ y_weather <> []
  /\ names_cover weather_schema (Some names_weather) = true
  /\ table_in_range X_weather = true
  /\ length y_weather <= recursion_bound
  /\ exists t, _build_tree (set_feature_names clf3 (Some names_weather))
                 X_weather y_weather 0 = Ok t
               /\ tree_typed weather_schema t = true.
Proof.
  assert (h1 : forallb (conforms weather_schema) X_weather = true) by reflexivity.
  assert (h2 : X_weather <> []) by discriminate.
  assert (h3 : y_weather <> []) by discriminate.
  assert (h4 : names_cover weather_schema (Some names_weather) = true) by reflexivity.
  assert (h5 : table_in_range X_weather = true) by (vm_compute; reflexivity).
  assert (h6 : length y_weather <= recursion_bound) by (vm_compute; lia).
  repeat (split; [assumption|]).
  apply build_tree_succeeds_on_conforming_table; assumption.
Defined.

Lemma predict_returns_a_leaf_label_witness :
  _predict_sample tree_two [num 0] = Ok "A" /\ In "A" (leaf_labels tree_two).
Proof.
  assert (h1 : _predict_sample tree_two [num 0] = Ok "A") by reflexivity.
  split; [exact h1|]. eapply predict_returns_a_leaf_label. exact h1.
Defined.

Lemma predict_conforming_sample_witness :
  tree_typed [Numeric] tree_two = true
  /\ conforms [Numeric] sample_missing = true
  /\ exists c, _predict_sample tree_two sample_missing = Ok c.
Proof.
  assert (h1 : tree_typed [Numeric] tree_two = true) by reflexivity.
  assert (h2 : conforms [Numeric] sample_missing = true) by reflexivity.
  repeat (split; [assumption|]).
  eapply predict_succeeds_on_conforming_sample; eassumption.
Defined.

Lemma prune_is_idempotent_witness :
  _prune tree_two X_two y_two = (tree_two, Ok tt)
  /\ _prune tree_two X_two y_two = (tree_two, Ok tt).
Proof.
  assert (h1 : _prune tree_two X_two y_two = (tree_two, Ok tt))
    by (vm_compute; reflexivity).
  split; [exact h1|]. eapply prune_is_idempotent. exact h1.
Defined.

Lemma prune_decision_witness :
  try_prune tree_two 0 (VNum (1 # 2)) X_dup y_dup = Ok (Leaf "A")
  /\ exists e e',
       prediction_error tree_two X_dup y_dup = Ok e
       /\ prediction_error (Leaf "A") X_dup y_dup = Ok e'
       /\ e' <= e.
Proof.
  assert (h1 : try_prune tree_two 0 (VNum (1 # 2)) X_dup y_dup = Ok (Leaf "A"))
    by (vm_compute; reflexivity).
  split; [exact h1|]. eapply prune_decision_keeps_node_error. exact h1.
Defined.

Lemma prune_conforming_witness :
  tree_typed [Numeric] tree_two = true
  /\ forallb (conforms [Numeric]) X_dup = true
  /\ length X_dup <= length y_dup
  /\ y_dup <> []
  /\ exists nd', _prune tree_two X_dup y_dup = (nd', Ok tt)
                 /\ tree_typed [Numeric] nd' = true.
Proof.
  assert (h1 : tree_typed [Numeric] tree_two = true) by reflexivity.
  assert (h2 : forallb (conforms [Numeric]) X_dup = true) by reflexivity.
  assert (h3 : length X_dup <= length y_dup) by (simpl; lia).
  assert (h4 : y_dup <> []) by discriminate.
  repeat (split; [assumption|]).
  apply prune_succeeds_on_conforming_validation_set; assumption.
Defined.

Lemma collapse_label_distinct_rows_witness :
  rows_distinct X_two = true
  /\ majority_class 0 (VNum (1 # 2)) X_two y_two = Ok "A"
  /\ spec_majority_class 0 X_two y_two = Ok "A".
Proof.
  assert (h1 : rows_distinct X_two = true) by reflexivity.
  assert (h2 : majority_class 0 (VNum (1 # 2)) X_two y_two = Ok "A") by reflexivity.
  repeat (split; [assumption|]).
  eapply collapse_label_with_distinct_rows; eassumption.
Defined.

Lemma fit_discards_previous_state_witness :
  max_depth clf = max_depth (set_tree clf (Leaf "Z"))
  /\ min_samples_split clf = min_samples_split (set_tree clf (Leaf "Z"))
  /\ snd (fit clf X_two y_two None None None)
     = snd (fit (set_tree clf (Leaf "Z")) X_two y_two None None None).
Proof.
  assert (h1 : max_depth clf = max_depth (set_tree clf (Leaf "Z"))) by reflexivity.
  assert (h2 : min_samples_split clf = min_samples_split (set_tree clf (Leaf "Z")))
    by reflexivity.
  repeat (split; [assumption|]).
  eapply proj1. apply fit_discards_previous_state; assumption.
Defined.

Lemma fit_and_predict_conforming_witness :
  forallb (conforms weather_schema) X_weather = true
  /\ X_weather <> [] /\ y_weather <> []
  /\ names_cover weather_schema (Some names_weather) = true
  /\ validation_ok weather_schema (Some X_weather_val) (Some y_weather_val) = true
  /\ table_in_range X_weather = true
  /\ length y_weather <= recursion_bound
  /\ snd (fit clf3 X_weather y_weather (Some names_weather)
            (Some X_weather_val) (Some y_weather_val)) = Ok tt.
Proof.
  assert (h1 : forallb (conforms weather_schema) X_weather = true) by reflexivity.
  assert (h2 : X_weather <> []) by discriminate.
  assert (h3 : y_weather <> []) by discriminate.
  assert (h4 : names_cover weather_schema (Some names_weather) = true) by reflexivity.
  assert (h5 : validation_ok weather_schema (Some X_weather_val) (Some y_weather_val)
               = true) by reflexivity.
  assert (h6 : table_in_range X_weather = true) by (vm_compute; reflexivity).
  assert (h7 : length y_weather <= recursion_bound) by (vm_compute; lia).
  repeat (split; [assumption|]).
  eapply proj1. apply fit_and_predict_succeed_on_conforming_data with
    (schema := weather_schema); assumption.
Defined.

Lemma thresholds_of_categorical_column_witness :
  forallb is_number (distinct [VStr "Sunny"; VStr "Rainy"; VStr "Sunny"]) = false
  /\ Permutation (thresholds_of [VStr "Sunny"; VStr "Rainy"; VStr "Sunny"])
                 (distinct [VStr "Sunny"; VStr "Rainy"; VStr "Sunny"]).
Proof.
  assert (h1 : forallb is_number
                 (distinct [VStr "Sunny"; VStr "Rainy"; VStr "Sunny"]) = false)
    by reflexivity.
  split; [exact h1|]. eapply proj1. apply thresholds_of_categorical_column. exact h1.
Defined.

End Instances.
